(** * Dijkstra demo (Source.cpp): a shallow embedding and its properties

    The program keeps four globals ([number_of_nodes], [graph], [dist],
    [previous_node]), reads a dense cost matrix and runs Dijkstra's
    algorithm with a [std::set<int, ltDist>] as frontier.  The embedding
    below follows Source.cpp function by function:

    - [int] is a 32-bit two's complement integer, held in [Z] with the
      wrap-around written out ([wrap32]);
    - [vector<int>] is a [list Z]; [operator[]] outside the vector has no
      defined behaviour in C++, which is the outcome [Undefined] here;
    - the globals are threaded through a small state monad [M];
    - [std::set<int, ltDist>] is a list kept sorted by the comparator,
      searched the way an ordered container is searched;
    - the [while] loop takes fuel; lemma [dijkstra_total] shows that
      enough fuel always exists. *)

From Stdlib Require Import ZArith List Lia Bool.
Import ListNotations.
Local Open Scope Z_scope.

(** ** 32-bit signed integers *)

Definition INT_MAX : Z := 2147483647.
Definition INT_MIN : Z := -2147483648.

(** Reduction of an exact result to the representable value congruent to
    it modulo 2^32. *)
Definition wrap32 (z : Z) : Z := (z + 2147483648) mod 4294967296 - 2147483648.

Definition add32 (a b : Z) : Z := wrap32 (a + b).
Definition mul32 (a b : Z) : Z := wrap32 (a * b).

(** [const int max_nodes = 128;] *)
Definition max_nodes : Z := 128.

(** ** vector<int> *)

(** Total read, used in specifications and by the comparator. *)
Definition at_ (l : list Z) (i : Z) : Z := nth (Z.to_nat i) l 0.

Definition in_bounds (l : list Z) (i : Z) : bool :=
  (0 <=? i) && (i <? Z.of_nat (length l)).

Fixpoint upd (k : nat) (x : Z) (l : list Z) : list Z :=
  match l, k with
  | [], _ => []
  | _ :: t, O => x :: t
  | y :: t, S k' => y :: upd k' x t
  end.

(** [l[i]] as an rvalue: [None] outside the vector. *)
Definition vget (l : list Z) (i : Z) : option Z :=
  if in_bounds l i then Some (at_ l i) else None.

(** [l[i] = x]: [None] outside the vector. *)
Definition vset (l : list Z) (i x : Z) : option (list Z) :=
  if in_bounds l i then Some (upd (Z.to_nat i) x l) else None.

(** [l.resize(k)]: keeps the first [k] elements, value-initialises (to 0)
    the new ones. *)
Definition resize (l : list Z) (k : Z) : list Z :=
  firstn (Z.to_nat k) l ++ repeat 0 (Z.to_nat k - length l)%nat.

(** ** The globals and the monad *)

Record globals : Type := mkGlobals {
  number_of_nodes : Z;
  graph : list Z;
  dist : list Z;
  previous_node : list Z
}.

Definition with_n (g : globals) (n : Z) : globals :=
  mkGlobals n (graph g) (dist g) (previous_node g).
Definition with_graph (g : globals) (l : list Z) : globals :=
  mkGlobals (number_of_nodes g) l (dist g) (previous_node g).
Definition with_dist (g : globals) (l : list Z) : globals :=
  mkGlobals (number_of_nodes g) (graph g) l (previous_node g).
Definition with_prev (g : globals) (l : list Z) : globals :=
  mkGlobals (number_of_nodes g) (graph g) (dist g) l.

(** [Done a g]: normal completion with value [a] in state [g].
    [Undefined g]: a vector was indexed outside its bounds in state [g];
    C++ gives no meaning to the rest of the run.
    [OutOfFuel]: the fuel of the [while] loop ran out. *)
Inductive outcome (A : Type) : Type :=
| Done (a : A) (g : globals)
| Undefined (g : globals)
| OutOfFuel.
Arguments Done {A} a g.
Arguments Undefined {A} g.
Arguments OutOfFuel {A}.

Definition M (A : Type) : Type := globals -> outcome A.

Definition ret {A} (a : A) : M A := fun g => Done a g.

Definition bind {A B} (m : M A) (k : A -> M B) : M B :=
  fun g => match m g with
           | Done a g' => k a g'
           | Undefined g' => Undefined g'
           | OutOfFuel => OutOfFuel
           end.

Notation "x <- m ;; k" := (bind m (fun x => k))
  (at level 61, m at next level, right associativity).
Notation "m ;; k" := (bind m (fun _ => k))
  (at level 61, right associativity).

Definition get_n : M Z := fun g => Done (number_of_nodes g) g.
Definition get_dist : M (list Z) := fun g => Done (dist g) g.

Definition lift_read (sel : globals -> list Z) (i : Z) : M Z :=
  fun g => match vget (sel g) i with
           | Some x => Done x g
           | None => Undefined g
           end.

Definition lift_write (sel : globals -> list Z)
    (put : globals -> list Z -> globals) (i x : Z) : M unit :=
  fun g => match vset (sel g) i x with
           | Some l => Done tt (put g l)
           | None => Undefined g
           end.

Definition read_graph : Z -> M Z := lift_read graph.
Definition read_dist : Z -> M Z := lift_read dist.
Definition write_graph : Z -> Z -> M unit := lift_write graph with_graph.
Definition write_dist : Z -> Z -> M unit := lift_write dist with_dist.
Definition write_prev : Z -> Z -> M unit := lift_write previous_node with_prev.

(** [for (int i = start; i < start + count; i++) body], with the local
    variables the body updates passed along as [s]. *)
Fixpoint for_range {S : Type} (count : nat) (i : Z)
    (body : Z -> S -> M S) (s : S) : M S :=
  match count with
  | O => ret s
  | Datatypes.S c => s' <- body i s ;; for_range c (i + 1) body s'
  end.

(** ** Graph store *)

(** [graph[number_of_nodes * u + v]] : the flat index, in [int]. *)
Definition flat_index (n u v : Z) : Z := add32 (mul32 n u) v.

(** [int GraphGet(int u, int v)] *)
Definition GraphGet (u v : Z) : M Z :=
  n <- get_n ;; read_graph (flat_index n u v).

(** [void GraphSet(int u, int v, int c)] *)
Definition GraphSet (u v c : Z) : M unit :=
  n <- get_n ;; write_graph (flat_index n u v) c.

(** [void GraphSet(int i, int c)], the overload used while loading. *)
Definition GraphSet_i (i c : Z) : M unit := write_graph i c.

(** ** The comparator and the ordered set *)

(** [operator<] of [std::pair<int,int>]. *)
Definition pair_lt (a b : Z * Z) : bool :=
  (fst a <? fst b) || (negb (fst b <? fst a) && (snd a <? snd b)).

(** [ltDist::operator()]: [make_pair(dist[u], u) < make_pair(dist[v], v)].
    It is only ever applied to members of the frontier and to the vertex
    looked up, all of them indices of [dist] (lemma [loop_state_wf]), so
    the read is the total one. *)
Definition ltDist (d : list Z) (u v : Z) : bool :=
  pair_lt (at_ d u, u) (at_ d v, v).

Section StdSet.

(** [std::set<int, Compare>] as the list of its elements in iteration
    order.  Lookups descend by the comparator: they pass the elements
    that compare less than the key and decide at the first one that
    does not.  On a list in comparator order this finds what the
    descent of a balanced tree finds, and the set of [dijkstra] is in
    that order in every state of its loop (lemma [loop_state_wf]). *)
Variable lt : Z -> Z -> bool.

(** [q.insert(x)] *)
Fixpoint set_insert (x : Z) (q : list Z) : list Z :=
  match q with
  | [] => [x]
  | y :: q' =>
      if lt y x then y :: set_insert x q'
      else if lt x y then x :: y :: q'
      else y :: q'
  end.

(** [q.count(x)] *)
Fixpoint set_count (x : Z) (q : list Z) : Z :=
  match q with
  | [] => 0
  | y :: q' =>
      if lt y x then set_count x q'
      else if lt x y then 0
      else 1
  end.

(** [q.erase(x)] *)
Fixpoint set_erase (x : Z) (q : list Z) : list Z :=
  match q with
  | [] => []
  | y :: q' =>
      if lt y x then y :: set_erase x q'
      else if lt x y then y :: q'
      else q'
  end.

End StdSet.

(** ** dijkstra *)

(** Lines 133-137: one iteration of the initialisation loop. *)
Definition init_body (i : Z) (_ : unit) : M unit :=
  write_dist i INT_MAX ;; write_prev i (-1).

(** Lines 163-195: the body of the inner [for], for one [v]; [q] is the
    local set. *)
Definition relax (u v : Z) (q : list Z) : M (list Z) :=
  c <- GraphGet u v ;;
  if c =? -1 then ret q
  else
    du <- read_dist u ;;
    c' <- GraphGet u v ;;
    let newDist := add32 du c' in
    dv <- read_dist v ;;
    if newDist <? dv then
      d <- get_dist ;;
      let q1 := if set_count (ltDist d) v q =? 0 then q
                else set_erase (ltDist d) v q in
      write_dist v newDist ;;
      write_prev v u ;;
      d' <- get_dist ;;
      ret (set_insert (ltDist d') v q1)
    else ret q.

(** Lines 156-196: one pass of the [while] body.  [*q.begin()] is the
    head [u] of the list and [q.erase(q.begin())] leaves its tail [q']. *)
Definition iteration (u : Z) (q' : list Z) : M (list Z) :=
  n <- get_n ;;
  for_range (Z.to_nat n) 0 (relax u) q'.

(** Lines 151-197: the [while] loop. *)
Fixpoint while_loop (fuel : nat) (q : list Z) : M unit :=
  match fuel with
  | O => fun _ => OutOfFuel
  | Datatypes.S fuel' =>
      match q with
      | [] => ret tt
      | u :: q' => q'' <- iteration u q' ;; while_loop fuel' q''
      end
  end.

(** Lines 133-147: everything before the [while] loop; the value is the
    set [q]. *)
Definition dijkstra_entry (s : Z) : M (list Z) :=
  n <- get_n ;;
  for_range (Z.to_nat n) 0 init_body tt ;;
  write_dist s 0 ;;
  d <- get_dist ;;
  ret (set_insert (ltDist d) s []).

(** [void dijkstra(int s)] *)
Definition dijkstra (fuel : nat) (s : Z) : M unit :=
  q <- dijkstra_entry s ;; while_loop fuel q.

(** ** main: sizing, loading, source selection *)

(** The input file after [in >> number_of_nodes]: the decimal integers
    still to come (as numbers, of any size), whether white space follows
    the last of them (or the number of nodes, when none is left), and the
    eof and fail flags of the stream.  Files holding anything but integers
    and white space are not described. *)
Record istream : Type := mkStream {
  tokens : list Z;
  trailing_space : bool;
  eofbit : bool;
  failbit : bool
}.

Definition in_int (x : Z) : bool := (INT_MIN <=? x) && (x <=? INT_MAX).

(** What extracting the decimal integer [x] stores in an [int]: [x]
    itself, or the nearest bound when [x] is outside [int]. *)
Definition clamp (x : Z) : Z :=
  if INT_MAX <? x then INT_MAX else if x <? INT_MIN then INT_MIN else x.

(** [in >> v], where [v] is the present content of the variable; the
    first component of the result is its content afterwards.  On a stream
    that is not good, and on one that ends before an integer starts,
    nothing is stored: the variable keeps its content and fail is set
    (with eof, when the end of the file is met).  An integer outside [int]
    stores the nearest bound and sets fail.  Reading the last integer of a
    file that ends right after it sets eof. *)
Definition stream_read (st : istream) (v : Z) : Z * istream :=
  if eofbit st || failbit st then
    (v, mkStream (tokens st) (trailing_space st) (eofbit st) true)
  else
    match tokens st with
    | [] => (v, mkStream [] (trailing_space st) true true)
    | x :: rest =>
        (clamp x,
         mkStream rest (trailing_space st)
           (match rest with
            | [] => negb (trailing_space st)
            | _ => false
            end)
           (negb (in_int x)))
    end.

(** Lines 215-217. *)
Definition create : M unit :=
  fun g =>
    let n := number_of_nodes g in
    Done tt (mkGlobals n
               (resize (graph g) (mul32 n n))
               (resize (dist g) n)
               (resize (previous_node g) n)).

(** Lines 219-229: the loading loop with its [break] on eof.  [v] is the
    content of the local variable [v] of [main], which every read goes
    through and which is written to the matrix whether or not the read
    stored anything. *)
Fixpoint load_loop (count : nat) (i : Z) (st : istream) (v : Z)
  : M (istream * Z) :=
  match count with
  | O => ret (st, v)
  | Datatypes.S c =>
      if eofbit st then ret (st, v)
      else
        let (v', st') := stream_read st v in
        GraphSet_i i v' ;; load_loop c (i + 1) st' v'
  end.

(** Lines 237-241. *)
Definition choose_source (n src : Z) : Z :=
  if (src <? 0) || (src >=? n) then 0 else src.

(** Lines 210-243 of [main], without the printing: [n] is the first
    integer of the file, [st] the rest of the file, [v0] whatever the
    uninitialised local [int v;] of line 205 holds, [src] the number typed
    by the user. *)
Definition main (fuel : nat) (n : Z) (st : istream) (v0 src : Z)
  : M unit :=
  fun g0 =>
    let g := with_n g0 n in
    if (0 <? n) && (n <? max_nodes) then
      (create ;;
       load_loop (Z.to_nat (mul32 n n)) 0 st v0 ;;
       dijkstra fuel (choose_source n src)) g
    else Done tt g.

(** The state of the globals when [main] starts. *)
Definition startup : globals := mkGlobals 0 [] [] [].

(** ** Vocabulary of the specification *)

Definition int_range (z : Z) : Prop := INT_MIN <= z <= INT_MAX.

Definition all_int (l : list Z) : bool :=
  forallb (fun c => (INT_MIN <=? c) && (c <=? INT_MAX)) l.

(** The globals as [main] leaves them before calling [dijkstra]: a
    positive number of nodes whose square is an [int], a square matrix of
    [int]s, and two tables with one slot per node. *)
Definition valid_state (g : globals) : Prop :=
  0 < number_of_nodes g /\
  number_of_nodes g * number_of_nodes g <= INT_MAX /\
  Z.of_nat (length (graph g)) = number_of_nodes g * number_of_nodes g /\
  all_int (graph g) = true /\
  Z.of_nat (length (dist g)) = number_of_nodes g /\
  Z.of_nat (length (previous_node g)) = number_of_nodes g.

Definition vertex (g : globals) (v : Z) : Prop := 0 <= v < number_of_nodes g.

(** The entry of the matrix in row [u], column [v]: what [GraphGet(u, v)]
    returns for vertices [u] and [v] (lemma [GraphGet_eq]). *)
Definition edge_cost (g : globals) (u v : Z) : Z :=
  at_ (graph g) (number_of_nodes g * u + v).

(** A real edge: an entry other than -1. *)
Definition has_edge (g : globals) (u v : Z) : Prop :=
  vertex g u /\ vertex g v /\ edge_cost g u v <> -1.

(** Every entry is -1 or a non-negative cost. *)
Definition nonneg_costs (g : globals) : Prop :=
  forallb (fun c => -1 <=? c) (graph g) = true.

Inductive reachable (g : globals) (s : Z) : Z -> Prop :=
| reach_source : vertex g s -> reachable g s s
| reach_edge u v : reachable g s u -> has_edge g u v -> reachable g s v.

(** A path, listed from its first vertex to its last. *)
Fixpoint is_path (g : globals) (p : list Z) : Prop :=
  match p with
  | [] => True
  | a :: t =>
      match t with
      | [] => vertex g a
      | b :: _ => has_edge g a b /\ is_path g t
      end
  end.

Fixpoint path_cost (g : globals) (p : list Z) : Z :=
  match p with
  | [] => 0
  | a :: t =>
      match t with
      | [] => 0
      | b :: _ => edge_cost g a b + path_cost g t
      end
  end.

(** No sum the algorithm can form exceeds [INT_MAX]: every path that
    starts at [s] and repeats no vertex, except possibly by its last
    step, costs at most [INT_MAX]. *)
Definition no_overflow (g : globals) (s : Z) : Prop :=
  forall p, hd_error p = Some s -> is_path g p -> NoDup (removelast p) ->
            path_cost g p <= INT_MAX.

(** A sufficient condition on the entries alone: [number_of_nodes] edges of
    the largest cost still fit. *)
Definition small_costs (g : globals) : Prop :=
  forallb (fun c => c * number_of_nodes g <=? INT_MAX) (graph g) = true.


(** The cost of a chain listed backwards ([v] first, its predecessor
    next, ...). *)
Fixpoint chain_cost (g : globals) (l : list Z) : Z :=
  match l with
  | [] => 0
  | v :: t =>
      match t with
      | [] => 0
      | p :: _ => edge_cost g p v + chain_cost g t
      end
  end.

(** The states in which the [while] condition is evaluated, starting from
    set [q0] and globals [g0]. *)
Inductive loop_state (q0 : list Z) (g0 : globals)
  : list Z -> globals -> Prop :=
| loop_first : loop_state q0 g0 q0 g0
| loop_next u q g q' g' :
    loop_state q0 g0 (u :: q) g ->
    iteration u q g = Done q' g' ->
    loop_state q0 g0 q' g'.

Definition tables {A} (o : outcome A) : option (list Z * list Z) :=
  match o with
  | Done _ g => Some (dist g, previous_node g)
  | _ => None
  end.

(** A file whose last integer is followed by a newline. *)
Definition file (l : list Z) : istream := mkStream l true false false.

(** ** Pure counterparts of the loop bodies

    On well-formed states no access leaves its vector, and the loop
    bodies are these functions on the pair of the local set and the
    globals (lemmas [relax_eq] and [iteration_eq]). *)

Definition state : Type := list Z * globals.

Definition relax_p (u v : Z) (st : state) : state :=
  let (q, g) := st in
  let c := edge_cost g u v in
  if c =? -1 then st
  else
    let newDist := add32 (at_ (dist g) u) c in
    if newDist <? at_ (dist g) v then
      let q1 := if set_count (ltDist (dist g)) v q =? 0 then q
                else set_erase (ltDist (dist g)) v q in
      let d' := upd (Z.to_nat v) newDist (dist g) in
      (set_insert (ltDist d') v q1,
       with_prev (with_dist g d') (upd (Z.to_nat v) u (previous_node g)))
    else st.

Fixpoint relax_from (count : nat) (u v : Z) (st : state) : state :=
  match count with
  | O => st
  | S c => relax_from c u (v + 1) (relax_p u v st)
  end.

Definition iteration_p (u : Z) (st : state) : state :=
  relax_from (Z.to_nat (number_of_nodes (snd st))) u 0 st.

(** The globals after the initialisation loop. *)
Definition reset (g : globals) : globals :=
  mkGlobals (number_of_nodes g) (graph g)
    (repeat INT_MAX (Z.to_nat (number_of_nodes g)))
    (repeat (-1) (Z.to_nat (number_of_nodes g))).

(** The set and the globals when the [while] loop is entered. *)
Definition entry_p (s : Z) (g : globals) : state :=
  ([s], with_dist (reset g) (upd (Z.to_nat s) 0 (dist (reset g)))).

(** The sum of [x - INT_MIN] over a table: the measure that every
    improvement lowers. *)
Fixpoint potential (l : list Z) : Z :=
  match l with
  | [] => 0
  | x :: t => (x - INT_MIN) + potential t
  end.

(** ** Invariants of the loops *)

(** A list in strictly increasing order of the comparator. *)
Fixpoint sorted (lt : Z -> Z -> bool) (q : list Z) : Prop :=
  match q with
  | [] => True
  | x :: t => Forall (fun y => lt x y = true) t /\ sorted lt t
  end.

(** Well-formed loop state for [n] nodes and matrix [G]: the globals have
    the right shape, [dist] holds [int]s, and the set holds vertices in
    the order of the comparator. *)
Definition wf (n : Z) (G : list Z) (st : state) : Prop :=
  number_of_nodes (snd st) = n /\
  graph (snd st) = G /\
  Z.of_nat (length (dist (snd st))) = n /\
  Z.of_nat (length (previous_node (snd st))) = n /\
  Forall int_range (dist (snd st)) /\
  Forall (fun v => 0 <= v < n) (fst st) /\
  sorted (ltDist (dist (snd st))) (fst st).

(** The quantity that every pass of the [while] body lowers. *)
Definition measure (n : Z) (st : state) : Z :=
  potential (dist (snd st)) * (n + 1) + Z.of_nat (length (fst st)).

(** Every real edge leaving [x] towards a vertex below [k] has been
    relaxed with the present [dist[x]] (costs read from [g0]). *)
Definition relaxed (g0 g : globals) (x k : Z) : Prop :=
  forall v, 0 <= v < k -> edge_cost g0 x v <> -1 ->
            at_ (dist g) v <= add32 (at_ (dist g) x) (edge_cost g0 x v).

(** Invariant for the relaxation property: a vertex is in the set,
    untouched, or has relaxed its edges; [cur] is the vertex whose inner
    loop is running and has arrived at [k]. *)
Definition inv_relaxed (g0 : globals) (cur k : Z) (st : state) : Prop :=
  wf (number_of_nodes g0) (graph g0) st /\
  forall x, vertex g0 x ->
            In x (fst st) \/ at_ (dist (snd st)) x = INT_MAX \/
            relaxed g0 (snd st) x (if x =? cur then k else number_of_nodes g0).

(** Invariant for unreachable vertices: whatever is in the set or has been
    written to is reachable. *)
Definition inv_reach (g0 : globals) (s : Z) (st : state) : Prop :=
  wf (number_of_nodes g0) (graph g0) st /\
  (forall v, In v (fst st) -> reachable g0 s v) /\
  (forall v, vertex g0 v ->
             at_ (dist (snd st)) v <> INT_MAX \/
             at_ (previous_node (snd st)) v <> -1 ->
             reachable g0 s v).

(** [x] has left the set with a finite distance. *)
Definition settled (g0 : globals) (st : state) (x : Z) : Prop :=
  vertex g0 x /\ ~ In x (fst st) /\ at_ (dist (snd st)) x < INT_MAX.

(** [chain g0 prev s v l]: [l] lists [v], [prev[v]], [prev[prev[v]]], ...
    down to [s], each step along a real edge of [g0]. *)
Inductive chain (g0 : globals) (prev : list Z) (s : Z)
  : Z -> list Z -> Prop :=
| chain_source : chain g0 prev s s [s]
| chain_step v u l :
    v <> s -> at_ prev v = u -> has_edge g0 u v ->
    chain g0 prev s u l -> chain g0 prev s v (v :: l).

(** The chain [l] of [v] repeats no vertex, passes through settled
    vertices only, and costs [dist[v]]. *)
Definition good_chain (g0 : globals) (s : Z) (st : state) (v : Z)
    (l : list Z) : Prop :=
  chain g0 (previous_node (snd st)) s v l /\
  NoDup l /\
  (forall y, In y (tl l) -> settled g0 st y) /\
  chain_cost g0 l = at_ (dist (snd st)) v.

(** Invariant for the predecessor chains, valid when no sum overflows:
    [m] separates the distances of the settled vertices from those in the
    set. *)
Definition inv_paths (g0 : globals) (s m : Z) (st : state) : Prop :=
  wf (number_of_nodes g0) (graph g0) st /\
  (forall v, vertex g0 v -> 0 <= at_ (dist (snd st)) v) /\
  at_ (dist (snd st)) s = 0 /\
  at_ (previous_node (snd st)) s = -1 /\
  0 <= m /\
  (forall y, In y (fst st) -> m <= at_ (dist (snd st)) y < INT_MAX) /\
  (forall x, settled g0 st x -> at_ (dist (snd st)) x <= m) /\
  (forall v, vertex g0 v -> at_ (dist (snd st)) v < INT_MAX ->
             exists l, good_chain g0 s st v l).


(** Scenario A of the specification, as globals. *)
Definition scenario_A_globals : globals :=
  mkGlobals 3 [-1; 1; 5; -1; -1; 1; -1; -1; -1] [0; 0; 0] [0; 0; 0].

(** A chain of two edges whose costs add up to 2^31. *)
Definition overflow_globals : globals :=
  mkGlobals 3 [-1; 2147483646; -1; -1; -1; 2; -1; -1; -1]
    [0; 0; 0] [0; 0; 0].

(** A cycle through the source whose cost is 2^31. *)
Definition wrap_globals : globals :=
  mkGlobals 2 [-1; 2147483646; 2; -1] [0; 0] [0; 0].

(** Two nodes, tables left over from an earlier run. *)
Definition stale_globals : globals :=
  mkGlobals 2 [-1; 1; -1; -1] [7; 7] [7; 7].

(** A 2 x 2 matrix with four different entries and no tables. *)
Definition matrix_globals : globals :=
  mkGlobals 2 [10; 11; 12; 13] [] [].

(** [overflow_globals] at the moment vertex 1 relaxes its edge to 2. *)
Definition overflow_midrun : globals :=
  mkGlobals 3 [-1; 2147483646; -1; -1; -1; 2; -1; -1; -1]
    [0; 2147483646; 2147483647] [-1; 0; -1].

(** [int newDist = dist[u] + GraphGet(u, v);] as a function of the
    globals. *)
Definition candidate (g : globals) (u v : Z) : Z :=
  add32 (at_ (dist g) u) (edge_cost g u v).

(** A stream as [main] finds it after a successful read of the number of
    nodes: fail is clear, and eof is set exactly when the file ended right
    after the last thing read. *)
Definition stream_ok (st : istream) : Prop :=
  failbit st = false /\
  eofbit st = match tokens st with
              | [] => negb (trailing_space st)
              | _ => false
              end.

(** Invariant for the predecessor entries: [previous_node[v]] is -1, or a
    vertex with a real edge to [v], and then [dist[v]] is below the
    sentinel. *)
Definition inv_pred (g0 : globals) (st : state) : Prop :=
  wf (number_of_nodes g0) (graph g0) st /\
  forall v, vertex g0 v ->
            at_ (previous_node (snd st)) v = -1 \/
            (has_edge g0 (at_ (previous_node (snd st)) v) v /\
             at_ (dist (snd st)) v < INT_MAX).

(** Invariant for the number of passes: the vertices of [done] are
    distinct and settled. *)
Definition inv_done (g0 : globals) (s : Z) (done : list Z) (st : state)
  : Prop :=
  (exists m, inv_paths g0 s m st) /\
  NoDup done /\
  forall x, In x done -> settled g0 st x.

(** The integers of a file before the first one outside [int]. *)
Fixpoint int_prefix (ts : list Z) : list Z :=
  match ts with
  | [] => []
  | x :: rest => if in_int x then x :: int_prefix rest else []
  end.

(** What the loading loop writes once the integers of [int_prefix] are
    read, with [m] entries of the matrix still to come, [v] in the
    variable and [rest] left in the file.
    - Nothing is left: when white space follows the last integer, one
      more pass runs, its read meets the end of the file and stores
      nothing, and the content [v] of the variable goes to the next
      entry; when the file ends right after its last integer, eof is
      already set and the loop stops.
    - An integer [x] outside [int] comes next: the bound nearest to it is
      stored and written and fail is set; every later read fails and
      leaves the bound in the variable, so every later pass writes it
      again, unless [x] ended the file and set eof. *)
Definition tail_writes (m : nat) (trailing : bool) (v : Z) (rest : list Z)
  : list Z :=
  match m, rest with
  | O, _ => []
  | S _, [] => if trailing then [v] else []
  | S c, [x] => clamp x :: (if trailing then repeat (clamp x) c else [])
  | S c, x :: _ => clamp x :: repeat (clamp x) c
  end.

(** The entry written after the last integer of a file of integers
    within [int] that has fewer than [count] of them and ends in white
    space: a copy of the last integer read ([v0] when there was none). *)
Definition stale_write (count : nat) (st : istream) (v0 : Z) : list Z :=
  if (length (tokens st) <? count)%nat && trailing_space st
  then [last (tokens st) v0]
  else [].

(** The first [count] entries of the matrix after the loading loop has
    run on a stream that is [stream_ok]: the entries written, then the
    zeros left by [resize]. *)
Definition loaded_matrix (count : nat) (st : istream) (v0 : Z) : list Z :=
  let p := int_prefix (tokens st) in
  let w := firstn count p
             ++ tail_writes (count - length p) (trailing_space st)
                  (last p v0) (skipn (length p) (tokens st)) in
  w ++ repeat 0 (count - length w).

(** The globals [main] hands to [dijkstra] for [n] nodes, the file [st]
    and the initial content [v0] of the variable; both tables hold [n]
    zeros. *)
Definition loaded (n : Z) (st : istream) (v0 : Z) : globals :=
  mkGlobals n
    (loaded_matrix (Z.to_nat (n * n)) st v0)
    (repeat 0 (Z.to_nat n)) (repeat 0 (Z.to_nat n)).

(** Scenario A at the moment vertex 1 relaxes its edge to vertex 2: the
    set holds vertex 2 with the distance 5 of the direct edge. *)
Definition scenario_A_midrun : globals :=
  mkGlobals 3 [-1; 1; 5; -1; -1; 1; -1; -1; -1] [0; 1; 5] [-1; 0; 0].

(** Every sum [dist[u] + GraphGet(u, v)] that line 170 forms during
    [dijkstra(s)] on [g] is at most [INT_MAX]: in every pass of the
    [while] loop that the run makes, [u] being the vertex extracted, and
    for every [v] with an edge from [u], in the state in which the inner
    loop reaches [v]. *)
Definition no_wrap_run (g : globals) (s : Z) : Prop :=
  forall q0 g1 u q gq v qv gv,
    dijkstra_entry s g = Done q0 g1 ->
    loop_state q0 g1 (u :: q) gq ->
    0 <= v < number_of_nodes g ->
    for_range (Z.to_nat v) 0 (relax u) q gq = Done qv gv ->
    edge_cost gv u v <> -1 ->
    at_ (dist gv) u + edge_cost gv u v <= INT_MAX.




(** Edges 0->1 and 1->2 of cost 2000000000 each, and a detour 0->2->1
    of cost 1 + 1: the path 0, 1, 2 costs more than [INT_MAX], but the
    run from 0 reaches 1 through 2 and never adds the two large costs. *)
Definition detour_globals : globals :=
  mkGlobals 3 [-1; 2000000000; 1; -1; -1; 2000000000; -1; 1; -1]
    [0; 0; 0] [0; 0; 0].

(** * Properties *)

(** ** Concrete runs: the scenarios of the specification *)

Example scenario_A :
  tables (main 10 3 (file [-1; 1; 5; -1; -1; 1; -1; -1; -1]) 0 0 startup)
  = Some ([0; 1; 2], [-1; 0; 1]).
Proof. vm_compute. reflexivity. Qed.

Example scenario_B :
  tables (main 10 1 (file [-1]) 0 0 startup) = Some ([0], [-1]).
Proof. vm_compute. reflexivity. Qed.

Example scenario_C :
  tables (main 10 2 (file [-1; -1; -1; -1]) 0 0 startup)
  = Some ([0; INT_MAX], [-1; -1]).
Proof. vm_compute. reflexivity. Qed.

Example scenario_D :
  tables (main 10 3 (file [-1; 2; 1; -1; -1; 1; -1; -1; -1]) 0 0 startup)
  = Some ([0; 2; 1], [-1; 0; 0]).
Proof. vm_compute. reflexivity. Qed.

(** ** Machine arithmetic *)

Lemma wrap32_range z : int_range (wrap32 z).
Proof.
  unfold int_range, wrap32, INT_MIN, INT_MAX.
  pose proof (Z.mod_pos_bound (z + 2147483648) 4294967296). lia.
Qed.

Lemma wrap32_small z : int_range z -> wrap32 z = z.
Proof.
  unfold int_range, wrap32, INT_MIN, INT_MAX. intros H.
  rewrite Z.mod_small; lia.
Qed.

Lemma wrap32_over z :
  INT_MAX < z <= INT_MAX + 4294967296 -> wrap32 z = z - 4294967296.
Proof.
  unfold wrap32, INT_MAX. intros H.
  replace (z + 2147483648) with ((z - 2147483648) + 1 * 4294967296) by lia.
  rewrite Z_mod_plus_full, Z.mod_small; lia.
Qed.

Lemma wrap32_le z : INT_MIN <= z -> wrap32 z <= z.
Proof.
  unfold wrap32, INT_MIN. intros H.
  pose proof (Z.mod_le (z + 2147483648) 4294967296). lia.
Qed.

Lemma wrap32_congr z : (wrap32 z - z) mod 4294967296 = 0.
Proof.
  unfold wrap32.
  pose proof (Z.div_mod (z + 2147483648) 4294967296).
  replace ((z + 2147483648) mod 4294967296 - 2147483648 - z)
    with (- ((z + 2147483648) / 4294967296) * 4294967296) by lia.
  apply Z_mod_mult.
Qed.

Lemma all_int_spec l : all_int l = true <-> Forall int_range l.
Proof.
  unfold all_int, int_range. rewrite forallb_forall, Forall_forall.
  split; intros H x Hx; specialize (H x Hx); lia.
Qed.

(** ** Vectors *)

Lemma in_bounds_true l i :
  in_bounds l i = true <-> 0 <= i < Z.of_nat (length l).
Proof. unfold in_bounds. lia. Qed.

Lemma vget_in l i : 0 <= i < Z.of_nat (length l) -> vget l i = Some (at_ l i).
Proof. intros H. unfold vget. apply in_bounds_true in H. now rewrite H. Qed.

Lemma vset_in l i x :
  0 <= i < Z.of_nat (length l) -> vset l i x = Some (upd (Z.to_nat i) x l).
Proof. intros H. unfold vset. apply in_bounds_true in H. now rewrite H. Qed.

Lemma vset_out l i x : ~ 0 <= i < Z.of_nat (length l) -> vset l i x = None.
Proof.
  intros H. unfold vset. destruct (in_bounds l i) eqn:E; [|reflexivity].
  apply in_bounds_true in E. contradiction.
Qed.

Lemma upd_length k x l : length (upd k x l) = length l.
Proof.
  revert k. induction l as [|y t IH]; intros [|k]; simpl; auto.
Qed.

Lemma nth_upd_same k x l d : (k < length l)%nat -> nth k (upd k x l) d = x.
Proof.
  revert k. induction l as [|y t IH]; intros [|k] H; simpl in *;
    try lia; auto. apply IH. lia.
Qed.

Lemma nth_upd_other k j x l d : j <> k -> nth j (upd k x l) d = nth j l d.
Proof.
  revert k j. induction l as [|y t IH]; intros [|k] [|j] H; simpl;
    auto; try congruence.
Qed.

Lemma at_upd_same i x l :
  0 <= i < Z.of_nat (length l) -> at_ (upd (Z.to_nat i) x l) i = x.
Proof. intros H. unfold at_. apply nth_upd_same. lia. Qed.

Lemma at_upd_other i j x l :
  0 <= i -> 0 <= j -> j <> i -> at_ (upd (Z.to_nat i) x l) j = at_ l j.
Proof. intros Hi Hj H. unfold at_. apply nth_upd_other. lia. Qed.

Lemma at_In l i : 0 <= i < Z.of_nat (length l) -> In (at_ l i) l.
Proof. intros H. unfold at_. apply nth_In. lia. Qed.

Lemma at_repeat x k i : 0 <= i < Z.of_nat k -> at_ (repeat x k) i = x.
Proof.
  intros H. unfold at_. apply nth_repeat_lt. lia.
Qed.

(** ** The monad *)

Lemma bind_Done {A B} (m : M A) (k : A -> M B) g a g' :
  m g = Done a g' -> bind m k g = k a g'.
Proof. intros H. unfold bind. now rewrite H. Qed.

Lemma read_dist_eq g i :
  0 <= i < Z.of_nat (length (dist g)) ->
  read_dist i g = Done (at_ (dist g) i) g.
Proof.
  intros H. unfold read_dist, lift_read. now rewrite vget_in.
Qed.

Lemma write_dist_eq g i x :
  0 <= i < Z.of_nat (length (dist g)) ->
  write_dist i x g = Done tt (with_dist g (upd (Z.to_nat i) x (dist g))).
Proof.
  intros H. unfold write_dist, lift_write. now rewrite vset_in.
Qed.

Lemma write_prev_eq g i x :
  0 <= i < Z.of_nat (length (previous_node g)) ->
  write_prev i x g
  = Done tt (with_prev g (upd (Z.to_nat i) x (previous_node g))).
Proof.
  intros H. unfold write_prev, lift_write. now rewrite vset_in.
Qed.

(** ** The ordered set *)

Section OrderedSet.

Variable lt : Z -> Z -> bool.
Hypothesis lt_irrefl : forall x, lt x x = false.
Hypothesis lt_trans :
  forall x y z, lt x y = true -> lt y z = true -> lt x z = true.
Hypothesis lt_total :
  forall x y, lt x y = false -> lt y x = false -> x = y.

Lemma sorted_head x t y : sorted lt (x :: t) -> In y t -> lt x y = true.
Proof.
  intros [H _] Hy. rewrite Forall_forall in H. now apply H.
Qed.

Lemma sorted_tail x t : sorted lt (x :: t) -> sorted lt t.
Proof. now intros [_ H]. Qed.

Lemma sorted_NoDup q : sorted lt q -> NoDup q.
Proof.
  induction q as [|x t IH]; intros H; constructor.
  - intros Hx. pose proof (sorted_head _ _ _ H Hx) as E.
    rewrite lt_irrefl in E. discriminate.
  - apply IH. eapply sorted_tail; eauto.
Qed.

Lemma set_count_sorted x q :
  sorted lt q ->
  (set_count lt x q = 1 /\ In x q) \/ (set_count lt x q = 0 /\ ~ In x q).
Proof.
  induction q as [|y t IH]; intros H; simpl.
  - right. tauto.
  - destruct (lt y x) eqn:Eyx.
    + destruct (IH (sorted_tail _ _ H)) as [[E I]|[E I]].
      * left. tauto.
      * right. split; [assumption|]. intros [->|Hx]; [|tauto].
        rewrite lt_irrefl in Eyx. discriminate.
    + destruct (lt x y) eqn:Exy.
      * right. split; [reflexivity|]. intros [->|Hx].
        -- rewrite lt_irrefl in Exy. discriminate.
        -- rewrite (sorted_head _ _ _ H Hx) in Eyx. discriminate.
      * left. split; [reflexivity|]. left. symmetry. now apply lt_total.
Qed.

Lemma set_erase_In x q y :
  sorted lt q -> (In y (set_erase lt x q) <-> In y q /\ y <> x).
Proof.
  induction q as [|z t IH]; intros H; simpl.
  - tauto.
  - pose proof (sorted_NoDup _ H) as ND. inversion ND as [|? ? Hz _]; subst.
    destruct (lt z x) eqn:Ezx.
    + simpl. rewrite (IH (sorted_tail _ _ H)).
      assert (z <> x) by (intros ->; rewrite lt_irrefl in Ezx; discriminate).
      split; [intros [->|[? ?]]|intros [[->|?] ?]]; tauto.
    + destruct (lt x z) eqn:Exz.
      * assert (z <> x) by (intros ->; rewrite lt_irrefl in Exz; discriminate).
        assert (~ In x t).
        { intros Hx. rewrite (sorted_head _ _ _ H Hx) in Ezx. discriminate. }
        simpl. split; [intros [->|?]|intros [[->|?] ?]]; try tauto.
        split; [tauto|]. intros ->. tauto.
      * assert (z = x) by (symmetry; now apply lt_total). subst z.
        split; [intros Hy|intros [[->|?] ?]]; try tauto.
        split; [tauto|]. intros ->. tauto.
Qed.

Lemma set_erase_sorted x q : sorted lt q -> sorted lt (set_erase lt x q).
Proof.
  induction q as [|z t IH]; intros H; simpl; [exact I|].
  destruct (lt z x) eqn:Ezx.
  - split; [|apply IH; eapply sorted_tail; eauto].
    apply Forall_forall. intros y Hy.
    apply (set_erase_In x t y (sorted_tail _ _ H)) in Hy.
    eapply sorted_head; eauto. tauto.
  - destruct (lt x z); [assumption|]. eapply sorted_tail; eauto.
Qed.

Lemma set_insert_In x q y :
  sorted lt q -> (In y (set_insert lt x q) <-> y = x \/ In y q).
Proof.
  induction q as [|z t IH]; intros H; simpl.
  - intuition.
  - destruct (lt z x) eqn:Ezx.
    + simpl. rewrite (IH (sorted_tail _ _ H)). tauto.
    + destruct (lt x z) eqn:Exz.
      * simpl. intuition.
      * assert (z = x) by (symmetry; now apply lt_total). subst z.
        simpl. intuition.
Qed.

Lemma set_insert_sorted x q : sorted lt q -> sorted lt (set_insert lt x q).
Proof.
  induction q as [|z t IH]; intros H; simpl.
  - split; [constructor|exact I].
  - destruct (lt z x) eqn:Ezx.
    + split; [|apply IH; eapply sorted_tail; eauto].
      apply Forall_forall. intros y Hy.
      apply (set_insert_In x t y (sorted_tail _ _ H)) in Hy.
      destruct Hy as [->|Hy]; [assumption|]. eapply sorted_head; eauto.
    + destruct (lt x z) eqn:Exz; [|assumption].
      split; [|assumption].
      constructor; [assumption|].
      apply Forall_forall. intros y Hy.
      apply lt_trans with z; [assumption|]. eapply sorted_head; eauto.
Qed.

(** [if (q.count(v)) q.erase(v);] leaves the set without [v]. *)
Lemma drop_In x q y :
  sorted lt q ->
  In y (if set_count lt x q =? 0 then q else set_erase lt x q)
  <-> In y q /\ y <> x.
Proof.
  intros H. destruct (set_count_sorted x q H) as [[E I]|[E I]]; rewrite E.
  - simpl. now apply set_erase_In.
  - simpl. split; [|tauto]. intros Hy. split; [assumption|].
    intros ->. contradiction.
Qed.

Lemma drop_sorted x q :
  sorted lt q ->
  sorted lt (if set_count lt x q =? 0 then q else set_erase lt x q).
Proof.
  intros H. destruct (set_count lt x q =? 0); [assumption|].
  now apply set_erase_sorted.
Qed.

End OrderedSet.

Lemma sorted_ext lt lt' q :
  (forall a b, In a q -> In b q -> lt' a b = lt a b) ->
  sorted lt q -> sorted lt' q.
Proof.
  induction q as [|x t IH]; intros E H; [exact I|].
  destruct H as [Hx Ht]. split.
  - rewrite Forall_forall in *. intros y Hy.
    rewrite E; simpl; auto.
  - apply IH; [|assumption]. intros a b Ha Hb. apply E; simpl; auto.
Qed.

(** The comparator is the lexicographic order on [(dist[v], v)]. *)
Lemma ltDist_spec d u v :
  ltDist d u v = true <->
  at_ d u < at_ d v \/ (at_ d u = at_ d v /\ u < v).
Proof. unfold ltDist, pair_lt. simpl. lia. Qed.

Lemma ltDist_irrefl d x : ltDist d x x = false.
Proof.
  destruct (ltDist d x x) eqn:E; [|reflexivity].
  apply ltDist_spec in E. lia.
Qed.

Lemma ltDist_trans d x y z :
  ltDist d x y = true -> ltDist d y z = true -> ltDist d x z = true.
Proof. rewrite !ltDist_spec. lia. Qed.

Lemma ltDist_total d x y :
  ltDist d x y = false -> ltDist d y x = false -> x = y.
Proof.
  intros H1 H2.
  destruct (Z.eq_dec x y) as [|N]; [assumption|exfalso].
  assert (ltDist d x y = true \/ ltDist d y x = true)
    by (rewrite !ltDist_spec; lia).
  destruct H; congruence.
Qed.

Lemma ltDist_upd d v x a b :
  0 <= v -> 0 <= a -> 0 <= b -> a <> v -> b <> v ->
  ltDist (upd (Z.to_nat v) x d) a b = ltDist d a b.
Proof.
  intros. unfold ltDist. now rewrite !at_upd_other.
Qed.

Ltac ltDist_order :=
  first [ exact (ltDist_irrefl _) | exact (ltDist_trans _)
        | exact (ltDist_total _) ].

Lemma Forall_upd (P : Z -> Prop) k x l :
  P x -> Forall P l -> Forall P (upd k x l).
Proof.
  intros Hx. revert k. induction l as [|y t IH]; intros k H; [destruct k; constructor|].
  inversion H; subst. destruct k; simpl; constructor; auto.
Qed.

Lemma upd_app pre x y t : upd (length pre) x (pre ++ y :: t) = pre ++ x :: t.
Proof. induction pre as [|z pre IH]; simpl; [reflexivity|]. now rewrite IH. Qed.

(** ** Measures *)

Lemma potential_nonneg l : Forall int_range l -> 0 <= potential l.
Proof.
  induction 1 as [|x t Hx _ IH]; simpl; [lia|].
  unfold int_range in Hx. lia.
Qed.

Lemma potential_upd k x l :
  (k < length l)%nat ->
  potential (upd k x l) = potential l - nth k l 0 + x.
Proof.
  revert k. induction l as [|y t IH]; intros k H; simpl in *; [lia|].
  destruct k; simpl; [lia|]. rewrite IH by lia. lia.
Qed.

Lemma bounded_NoDup_length n q :
  0 <= n -> NoDup q -> Forall (fun v => 0 <= v < n) q ->
  Z.of_nat (length q) <= n.
Proof.
  intros Hn ND HF.
  assert (incl q (map Z.of_nat (seq 0 (Z.to_nat n)))).
  { intros v Hv. rewrite Forall_forall in HF. specialize (HF v Hv).
    apply in_map_iff. exists (Z.to_nat v). split; [lia|].
    apply in_seq. lia. }
  pose proof (NoDup_incl_length ND H) as L.
  rewrite length_map, length_seq in L. lia.
Qed.

Lemma while_loop_more fuel :
  forall q g g' fuel',
    while_loop fuel q g = Done tt g' -> (fuel <= fuel')%nat ->
    while_loop fuel' q g = Done tt g'.
Proof.
  induction fuel as [|f IH]; intros q g g' fuel' Hrun Hle; [discriminate|].
  destruct fuel' as [|f']; [lia|].
  destruct q as [|u q]; simpl in *; [assumption|].
  unfold bind in *. destruct (iteration u q g) as [q2 g2| |]; try discriminate.
  apply IH; [assumption|lia].
Qed.

(** ** Entering the loop *)

Lemma init_loop_eq N Gr count :
  forall pd pp rd rp,
    length rd = count -> length rp = count -> length pd = length pp ->
    for_range count (Z.of_nat (length pd)) init_body tt
      (mkGlobals N Gr (pd ++ rd) (pp ++ rp))
    = Done tt (mkGlobals N Gr (pd ++ repeat INT_MAX count)
                 (pp ++ repeat (-1) count)).
Proof.
  induction count as [|c IH]; intros pd pp rd rp Hd Hp Hl.
  - destruct rd, rp; try discriminate. reflexivity.
  - destruct rd as [|x rd], rp as [|y rp]; try discriminate.
    simpl in Hd, Hp. simpl for_range. unfold init_body at 1.
    set (g := mkGlobals N Gr (pd ++ x :: rd) (pp ++ y :: rp)).
    assert (Bd : 0 <= Z.of_nat (length pd) < Z.of_nat (length (dist g))).
    { simpl. rewrite length_app. simpl. lia. }
    unfold bind at 1. unfold bind at 1.
    rewrite (write_dist_eq g _ INT_MAX Bd).
    set (g1 := with_dist g _).
    assert (Bp : 0 <= Z.of_nat (length pd)
                 < Z.of_nat (length (previous_node g1))).
    { simpl. rewrite length_app. simpl. lia. }
    rewrite (write_prev_eq g1 _ (-1) Bp).
    unfold g1, g, with_dist, with_prev. simpl.
    rewrite Nat2Z.id, upd_app.
    replace (upd (length pd) (-1) (pp ++ y :: rp)) with (pp ++ -1 :: rp)
      by (rewrite Hl; now rewrite upd_app).
    replace (pd ++ INT_MAX :: rd) with ((pd ++ [INT_MAX]) ++ rd)
      by (now rewrite <- app_assoc).
    replace (pp ++ -1 :: rp) with ((pp ++ [-1]) ++ rp)
      by (now rewrite <- app_assoc).
    replace (Z.of_nat (length pd) + 1)
      with (Z.of_nat (length (pd ++ [INT_MAX])))
      by (rewrite length_app; simpl; lia).
    rewrite IH; try lia.
    + now rewrite <- !app_assoc.
    + rewrite !length_app. simpl. lia.
Qed.

Lemma init_eq g :
  Z.of_nat (length (dist g)) = number_of_nodes g ->
  Z.of_nat (length (previous_node g)) = number_of_nodes g ->
  for_range (Z.to_nat (number_of_nodes g)) 0 init_body tt g
  = Done tt (reset g).
Proof.
  intros Hd Hp. destruct g as [N Gr d p]. simpl in *.
  apply (init_loop_eq N Gr (Z.to_nat N) [] [] d p); auto; lia.
Qed.

Lemma entry_eq g s :
  Z.of_nat (length (dist g)) = number_of_nodes g ->
  Z.of_nat (length (previous_node g)) = number_of_nodes g ->
  vertex g s ->
  dijkstra_entry s g = Done (fst (entry_p s g)) (snd (entry_p s g)).
Proof.
  intros Hd Hp Hs. unfold dijkstra_entry.
  unfold bind at 1, get_n.
  rewrite (bind_Done _ _ _ _ _ (init_eq g Hd Hp)).
  assert (B : 0 <= s < Z.of_nat (length (dist (reset g)))).
  { simpl. rewrite repeat_length. unfold vertex in Hs. lia. }
  rewrite (bind_Done _ _ _ _ _ (write_dist_eq (reset g) s 0 B)).
  reflexivity.
Qed.

Lemma entry_out g s :
  Z.of_nat (length (dist g)) = number_of_nodes g ->
  Z.of_nat (length (previous_node g)) = number_of_nodes g ->
  ~ vertex g s ->
  dijkstra_entry s g = Undefined (reset g).
Proof.
  intros Hd Hp Hs. unfold dijkstra_entry.
  unfold bind at 1, get_n.
  rewrite (bind_Done _ _ _ _ _ (init_eq g Hd Hp)).
  unfold bind, write_dist, lift_write. rewrite vset_out; [reflexivity|].
  simpl. rewrite repeat_length. unfold vertex in Hs.
  assert (0 <= number_of_nodes g) by lia. lia.
Qed.

Lemma Forall_repeat (P : Z -> Prop) x k : P x -> Forall P (repeat x k).
Proof. intros H. induction k; simpl; constructor; auto. Qed.

Lemma entry_wf g s :
  vertex g s -> wf (number_of_nodes g) (graph g) (entry_p s g).
Proof.
  intros Hs. unfold vertex in Hs. unfold wf, entry_p. simpl.
  rewrite upd_length, !repeat_length.
  repeat split; try lia; auto.
  apply Forall_upd; [|apply Forall_repeat];
    unfold int_range, INT_MIN, INT_MAX; lia.
Qed.

Lemma entry_dist_s g s : vertex g s -> at_ (dist (snd (entry_p s g))) s = 0.
Proof.
  intros Hs. unfold vertex in Hs. simpl. apply at_upd_same.
  rewrite repeat_length. lia.
Qed.

Lemma entry_dist_other g s v :
  vertex g s -> vertex g v -> v <> s ->
  at_ (dist (snd (entry_p s g))) v = INT_MAX.
Proof.
  unfold vertex. intros Hs Hv N. simpl.
  rewrite at_upd_other by lia. apply at_repeat. lia.
Qed.

Lemma entry_prev g s v :
  vertex g v -> at_ (previous_node (snd (entry_p s g))) v = -1.
Proof. unfold vertex. intros Hv. simpl. apply at_repeat. lia. Qed.

(** ** Paths and predecessor chains *)

Lemma path_cost_snoc g p u k :
  path_cost g ((p ++ [u]) ++ [k]) = path_cost g (p ++ [u]) + edge_cost g u k.
Proof.
  induction p as [|a p IH]; [simpl; lia|].
  destruct p as [|b p]; [simpl; lia|].
  change (path_cost g (((a :: b :: p) ++ [u]) ++ [k]))
    with (edge_cost g a b + path_cost g (((b :: p) ++ [u]) ++ [k])).
  change (path_cost g ((a :: b :: p) ++ [u]))
    with (edge_cost g a b + path_cost g ((b :: p) ++ [u])).
  rewrite IH. lia.
Qed.

Lemma is_path_snoc g p u k :
  is_path g (p ++ [u]) -> has_edge g u k -> is_path g ((p ++ [u]) ++ [k]).
Proof.
  intros H He. induction p as [|a p IH].
  - simpl. split; [assumption|]. now destruct He as (_ & ? & _).
  - destruct p as [|b p].
    + simpl in *. destruct H as [H1 H2]. split; [assumption|].
      split; [assumption|]. now destruct He as (_ & ? & _).
    + change (is_path g (((a :: b :: p) ++ [u]) ++ [k]))
        with (has_edge g a b /\ is_path g (((b :: p) ++ [u]) ++ [k])).
      change (is_path g ((a :: b :: p) ++ [u]))
        with (has_edge g a b /\ is_path g ((b :: p) ++ [u])) in H.
      destruct H as [H1 H2]. split; [assumption|]. now apply IH.
Qed.

Lemma is_path_vertices g p : is_path g p -> Forall (vertex g) p.
Proof.
  induction p as [|a p IH]; intros H; [constructor|].
  destruct p as [|b p].
  - constructor; [exact H|constructor].
  - destruct H as [(Ha & _) H]. constructor; [assumption|]. now apply IH.
Qed.

Lemma path_cost_rev g l : path_cost g (rev l) = chain_cost g l.
Proof.
  induction l as [|v l IH]; [reflexivity|].
  destruct l as [|u t]; [reflexivity|].
  change (rev (v :: u :: t)) with ((rev t ++ [u]) ++ [v]).
  rewrite path_cost_snoc.
  change (rev t ++ [u]) with (rev (u :: t)). rewrite IH.
  change (chain_cost g (v :: u :: t))
    with (edge_cost g u v + chain_cost g (u :: t)).
  lia.
Qed.

Lemma hd_error_snoc (p : list Z) u k :
  hd_error ((p ++ [u]) ++ [k]) = hd_error (p ++ [u]).
Proof. destruct p; reflexivity. Qed.

Section Chains.

Variables (g0 : globals) (prev : list Z) (s : Z).

Lemma chain_hd v l : chain g0 prev s v l -> exists t, l = v :: t.
Proof. intros [|]; eauto. Qed.

Lemma chain_ext prev' v l :
  chain g0 prev s v l ->
  (forall x, In x l -> x <> s -> at_ prev' x = at_ prev x) ->
  chain g0 prev' s v l.
Proof.
  induction 1 as [|v u l Hv Hp He Hc IH]; intros E; [constructor|].
  apply chain_step with u; auto.
  - rewrite E; simpl; auto.
  - apply IH. intros x Hx. apply E. now right.
Qed.

Lemma chain_vertices v l :
  vertex g0 s -> chain g0 prev s v l -> Forall (vertex g0) l.
Proof.
  intros Hs. induction 1 as [|v u l Hv Hp He Hc IH].
  - constructor; [assumption|constructor].
  - constructor; [|assumption]. now destruct He as (_ & ? & _).
Qed.

Lemma chain_rev_path v l :
  vertex g0 s -> chain g0 prev s v l ->
  is_path g0 (rev l) /\ hd_error (rev l) = Some s.
Proof.
  intros Hs. induction 1 as [|v u l Hv Hp He Hc IH].
  - simpl. auto.
  - destruct (chain_hd _ _ Hc) as [t ->].
    change (rev (v :: u :: t)) with ((rev t ++ [u]) ++ [v]).
    change (rev (u :: t)) with (rev t ++ [u]) in IH.
    destruct IH as [IH1 IH2]. split.
    + now apply is_path_snoc.
    + now rewrite hd_error_snoc.
Qed.


End Chains.

(** ** Steps of the loops *)

Lemma relax_from_snoc c :
  forall u v st,
    relax_from (S c) u v st
    = relax_p u (v + Z.of_nat c) (relax_from c u v st).
Proof.
  induction c as [|c IH]; intros u v st.
  - simpl. now rewrite Z.add_0_r.
  - change (relax_from (S (S c)) u v st)
      with (relax_from (S c) u (v + 1) (relax_p u v st)).
    rewrite IH. simpl relax_from at 2.
    f_equal. lia.
Qed.

(** Invariant rule for the first [k] steps of the inner loop. *)
Lemma relax_from_rule (J : Z -> state -> Prop) u st k :
  0 <= k ->
  J 0 st ->
  (forall j st', 0 <= j < k -> J j st' -> J (j + 1) (relax_p u j st')) ->
  J k (relax_from (Z.to_nat k) u 0 st).
Proof.
  intros Hk H0 Hstep.
  assert (Gen : forall c, Z.of_nat c <= k ->
                          J (Z.of_nat c) (relax_from c u 0 st)).
  { induction c as [|c IH]; intros Hc; [exact H0|].
    rewrite relax_from_snoc, Z.add_0_l.
    replace (Z.of_nat (S c)) with (Z.of_nat c + 1) by lia.
    apply Hstep; [lia|]. apply IH. lia. }
  specialize (Gen (Z.to_nat k)). rewrite Z2Nat.id in Gen by lia.
  apply Gen. lia.
Qed.

(** The [while] loop ends in a state in which its condition was
    evaluated. *)
Lemma while_loop_loop_state qa ga fuel :
  forall q g g',
    loop_state qa ga q g -> while_loop fuel q g = Done tt g' ->
    loop_state qa ga [] g'.
Proof.
  induction fuel as [|fuel IH]; intros q g g' Hl Hw; [discriminate|].
  destruct q as [|u q]; simpl in Hw.
  - unfold ret in Hw. inversion Hw; subst. exact Hl.
  - unfold bind in Hw. destruct (iteration u q g) as [q'' g''| |] eqn:Hit;
      try discriminate.
    apply (IH q'' g'' g'); [|exact Hw].
    now apply loop_next with u q g.
Qed.

(** ** The loop bodies on well-formed states *)

Section Engine.

(** [g0] holds the globals [dijkstra] is called with; the number of
    nodes and the matrix never change. *)
Variable g0 : globals.
Local Abbreviation n := (number_of_nodes g0).
Local Abbreviation G := (graph g0).
Hypothesis Hn : 0 < n.
Hypothesis Hnn : n * n <= INT_MAX.
Hypothesis HG : Z.of_nat (length G) = n * n.

#[local] Set Default Proof Using "Hn Hnn HG".

Lemma flat_index_eq u v :
  0 <= u < n -> 0 <= v < n ->
  flat_index n u v = n * u + v /\ 0 <= n * u + v < n * n.
Proof.
  intros Hu Hv. unfold INT_MAX in Hnn.
  assert (0 <= n * u + v < n * n) by nia.
  split; [|assumption].
  unfold flat_index, add32, mul32.
  rewrite (wrap32_small (n * u)) by (unfold int_range, INT_MIN, INT_MAX; nia).
  apply wrap32_small. unfold int_range, INT_MIN, INT_MAX; nia.
Qed.

Lemma GraphGet_eq g u v :
  number_of_nodes g = n -> graph g = G ->
  0 <= u < n -> 0 <= v < n ->
  GraphGet u v g = Done (edge_cost g u v) g.
Proof.
  intros Hgn Hgg Hu Hv.
  destruct (flat_index_eq u v Hu Hv) as [E B].
  unfold GraphGet, bind, get_n, read_graph, lift_read, edge_cost.
  rewrite Hgn, E, vget_in; [reflexivity|]. rewrite Hgg, HG. exact B.
Qed.

Lemma relax_eq_shape u v q g :
  number_of_nodes g = n -> graph g = G ->
  Z.of_nat (length (dist g)) = n ->
  Z.of_nat (length (previous_node g)) = n ->
  0 <= u < n -> 0 <= v < n ->
  relax u v q g
  = Done (fst (relax_p u v (q, g))) (snd (relax_p u v (q, g))).
Proof.
  intros Hgn Hgg Hd Hp Hu Hv. simpl. unfold relax.
  rewrite (bind_Done _ _ _ _ _ (GraphGet_eq g u v Hgn Hgg Hu Hv)).
  destruct (edge_cost g u v =? -1) eqn:Ec; [reflexivity|].
  rewrite (bind_Done _ _ _ _ _ (read_dist_eq g u ltac:(lia))).
  rewrite (bind_Done _ _ _ _ _ (GraphGet_eq g u v Hgn Hgg Hu Hv)).
  cbv zeta.
  rewrite (bind_Done _ _ _ _ _ (read_dist_eq g v ltac:(lia))).
  destruct (add32 (at_ (dist g) u) (edge_cost g u v) <? at_ (dist g) v)
    eqn:El; [|reflexivity].
  unfold bind at 1. unfold get_dist at 1.
  rewrite (bind_Done _ _ _ _ _ (write_dist_eq g v _ ltac:(lia))).
  set (g1 := with_dist g _).
  assert (Hp1 : 0 <= v < Z.of_nat (length (previous_node g1)))
    by (simpl; lia).
  rewrite (bind_Done _ _ _ _ _ (write_prev_eq g1 v u Hp1)).
  reflexivity.
Qed.

Lemma relax_eq u v st :
  wf n G st -> 0 <= u < n -> 0 <= v < n ->
  relax u v (fst st) (snd st)
  = Done (fst (relax_p u v st)) (snd (relax_p u v st)).
Proof.
  destruct st as [q g]. intros (Hgn & Hgg & Hd & Hp & _) Hu Hv.
  now apply relax_eq_shape.
Qed.

(** *** One relaxation *)

(** What [relax_p] does to a well-formed state: nothing, when there is
    no edge or no improvement; otherwise [dist[v]] and
    [previous_node[v]] are overwritten and [v] is in the set. *)
Lemma relax_cases u v q g :
  wf n G (q, g) -> 0 <= u < n -> 0 <= v < n ->
  let c := edge_cost g u v in
  let nd := add32 (at_ (dist g) u) c in
  (relax_p u v (q, g) = (q, g) /\ (c = -1 \/ at_ (dist g) v <= nd))
  \/
  (exists q' g',
      relax_p u v (q, g) = (q', g') /\
      c <> -1 /\ nd < at_ (dist g) v /\
      wf n G (q', g') /\
      (forall y, In y q' <-> y = v \/ In y q) /\
      dist g' = upd (Z.to_nat v) nd (dist g) /\
      at_ (dist g') v = nd /\ at_ (previous_node g') v = u /\
      (forall w, 0 <= w -> w <> v ->
                 at_ (dist g') w = at_ (dist g) w /\
                 at_ (previous_node g') w = at_ (previous_node g) w)).
Proof.
  intros (Hgn & Hgg & Hd & Hp & Hr & Hq & Hs) Hu Hv c nd. simpl in *.
  unfold relax_p. fold c. destruct (c =? -1) eqn:Ec.
  { left. split; [reflexivity|]. left. lia. }
  fold nd. destruct (nd <? at_ (dist g) v) eqn:El.
  2:{ left. split; [reflexivity|]. right. lia. }
  right. do 2 eexists. split; [reflexivity|].
  set (d := dist g) in *.
  set (d' := upd (Z.to_nat v) nd d).
  set (q1 := if set_count (ltDist d) v q =? 0 then q
             else set_erase (ltDist d) v q).
  assert (In1 : forall y, In y q1 <-> In y q /\ y <> v).
  { intros y. apply drop_In; try ltDist_order. exact Hs. }
  assert (S1 : sorted (ltDist d') q1).
  { apply sorted_ext with (ltDist d).
    - intros a b Ha Hb. apply In1 in Ha, Hb.
      rewrite Forall_forall in Hq.
      apply ltDist_upd; try tauto; try lia.
      + apply Hq; tauto.
      + apply Hq; tauto.
    - apply drop_sorted; try ltDist_order. exact Hs. }
  assert (In2 : forall y, In y (set_insert (ltDist d') v q1)
                          <-> y = v \/ In y q).
  { intros y. rewrite set_insert_In; try ltDist_order; [|exact S1].
    rewrite In1. destruct (Z.eq_dec y v); tauto. }
  split; [lia|]. split; [lia|].
  split; [|split; [exact In2|]].
  - unfold wf. simpl. repeat split; auto.
    + unfold d'. rewrite upd_length. exact Hd.
    + rewrite upd_length. exact Hp.
    + apply Forall_upd; [apply wrap32_range|assumption].
    + apply Forall_forall. intros y Hy. apply In2 in Hy.
      rewrite Forall_forall in Hq. destruct Hy as [->|Hy]; auto.
    + apply set_insert_sorted; try ltDist_order. exact S1.
  - simpl. split; [reflexivity|]. split; [apply at_upd_same; lia|].
    split; [apply at_upd_same; lia|].
    intros w Hw Hwv. split; apply at_upd_other; lia.
Qed.

Lemma relax_wf u v st :
  wf n G st -> 0 <= u < n -> 0 <= v < n -> wf n G (relax_p u v st).
Proof.
  destruct st as [q g]. intros H Hu Hv.
  destruct (relax_cases u v q g H Hu Hv) as [[E _]|(q' & g' & E & _ & _ & W & _)];
    rewrite E; assumption.
Qed.

Lemma relax_from_wf u count v st :
  wf n G st -> 0 <= u < n -> 0 <= v -> v + Z.of_nat count <= n ->
  wf n G (relax_from count u v st).
Proof.
  revert v st. induction count as [|c IH]; intros v st H Hu Hv Hc; simpl.
  - assumption.
  - apply IH; try lia. apply relax_wf; auto. lia.
Qed.

Lemma for_range_relax_eq u count v st :
  wf n G st -> 0 <= u < n -> 0 <= v -> v + Z.of_nat count <= n ->
  for_range count v (relax u) (fst st) (snd st)
  = Done (fst (relax_from count u v st)) (snd (relax_from count u v st)).
Proof.
  revert v st. induction count as [|c IH]; intros v st H Hu Hv Hc; simpl.
  - reflexivity.
  - rewrite (bind_Done _ _ _ _ _ (relax_eq u v st H Hu ltac:(lia))).
    apply IH; try lia. apply relax_wf; auto. lia.
Qed.

Lemma iteration_eq u st :
  wf n G st -> 0 <= u < n ->
  iteration u (fst st) (snd st)
  = Done (fst (iteration_p u st)) (snd (iteration_p u st)).
Proof.
  intros H Hu. unfold iteration, iteration_p.
  unfold bind at 1, get_n.
  apply for_range_relax_eq; auto; try lia.
  destruct H as [-> _]. lia.
Qed.

Lemma iteration_wf u st :
  wf n G st -> 0 <= u < n -> wf n G (iteration_p u st).
Proof.
  intros H Hu. unfold iteration_p. apply relax_from_wf; auto; try lia.
  destruct H as [-> _]. lia.
Qed.

(** Invariant rule for the inner loop. *)
Lemma iteration_rule (J : Z -> state -> Prop) u st :
  number_of_nodes (snd st) = n ->
  J 0 st ->
  (forall k st', 0 <= k < n -> J k st' -> J (k + 1) (relax_p u k st')) ->
  J n (iteration_p u st).
Proof.
  intros Hgn H0 Hstep. unfold iteration_p. rewrite Hgn.
  assert (Gen : forall count v st',
             0 <= v -> v + Z.of_nat count = n -> J v st' ->
             J n (relax_from count u v st')).
  { induction count as [|c IH]; intros v st' Hv Hc Hj; simpl.
    - replace n with v by lia. assumption.
    - apply IH; try lia. apply Hstep; [lia|assumption]. }
  apply Gen; auto; lia.
Qed.

Lemma wf_head u q g : wf n G (u :: q, g) -> 0 <= u < n /\ wf n G (q, g).
Proof.
  intros (Hgn & Hgg & Hd & Hp & Hr & Hq & Hs). simpl in *.
  inversion Hq; subst. split; [assumption|].
  unfold wf; simpl. destruct Hs. repeat split; auto.
Qed.

(** Invariant rule for the [while] loop. *)
Lemma while_rule (I : state -> Prop) :
  (forall st, I st -> wf n G st) ->
  (forall u q g, I (u :: q, g) -> I (iteration_p u (q, g))) ->
  forall fuel q g g',
    I (q, g) -> while_loop fuel q g = Done tt g' -> I ([], g').
Proof.
  intros Hwf Hstep. induction fuel as [|f IH]; intros q g g' Hi Hrun.
  - discriminate.
  - destruct q as [|u q]; simpl in Hrun.
    + unfold ret in Hrun. now inversion Hrun; subst.
    + destruct (wf_head u q g (Hwf _ Hi)) as [Hu W].
      rewrite (bind_Done _ _ _ _ _ (iteration_eq u (q, g) W Hu)) in Hrun.
      specialize (Hstep u q g Hi).
      destruct (iteration_p u (q, g)) as [q2 g2] eqn:E. simpl in Hrun.
      now apply (IH q2 g2 g').
Qed.

(** *** Termination of the [while] loop *)

Lemma wf_length st : wf n G st -> Z.of_nat (length (fst st)) <= n.
Proof.
  intros (_ & _ & _ & _ & _ & Hq & Hs).
  apply bounded_NoDup_length; [lia| |assumption].
  apply sorted_NoDup with (ltDist (dist (snd st))); [ltDist_order|assumption].
Qed.

Lemma relax_potential u v st :
  wf n G st -> 0 <= u < n -> 0 <= v < n ->
  relax_p u v st = st \/
  potential (dist (snd (relax_p u v st))) < potential (dist (snd st)).
Proof.
  destruct st as [q g]. intros H Hu Hv.
  destruct (relax_cases u v q g H Hu Hv)
    as [[E _]|(q' & g' & E & _ & Hlt & _ & _ & Ed & _)].
  - left. assumption.
  - right. rewrite E. simpl. rewrite Ed.
    destruct H as (_ & _ & Hd & _). simpl in Hd.
    rewrite potential_upd by lia. unfold at_ in *. lia.
Qed.

Lemma iteration_measure u q g :
  wf n G (u :: q, g) ->
  0 <= measure n (iteration_p u (q, g)) < measure n (u :: q, g).
Proof.
  intros H. destruct (wf_head u q g H) as [Hu W].
  set (J := fun (_ : Z) st =>
              wf n G st /\
              (st = (q, g) \/
               potential (dist (snd st)) < potential (dist g))).
  assert (HJ : J n (iteration_p u (q, g))).
  { apply (iteration_rule J u (q, g)).
    - now destruct W.
    - split; [assumption|]. now left.
    - intros k st' Hk [W' Hc]. split; [now apply relax_wf|].
      destruct (relax_potential u k st' W' Hu Hk) as [E|L].
      + rewrite E. assumption.
      + right. destruct Hc as [->|Hc]; simpl in *; lia. }
  destruct HJ as [W' Hc].
  pose proof (wf_length _ W') as L'.
  assert (P' : 0 <= potential (dist (snd (iteration_p u (q, g))))).
  { apply potential_nonneg. now destruct W' as (_ & _ & _ & _ & ? & _). }
  unfold measure. split; [nia|].
  destruct Hc as [->|Hc]; simpl in *.
  - lia.
  - nia.
Qed.

Lemma while_loop_terminates_at fuel :
  forall q g,
    wf n G (q, g) -> measure n (q, g) < Z.of_nat fuel ->
    exists g', while_loop fuel q g = Done tt g'.
Proof.
  induction fuel as [|f IH]; intros q g W Hm.
  - exfalso. unfold measure in Hm.
    assert (0 <= potential (dist g)).
    { apply potential_nonneg. now destruct W as (_ & _ & _ & _ & ? & _). }
    simpl in *. nia.
  - destruct q as [|u q]; simpl.
    + exists g. reflexivity.
    + destruct (wf_head u q g W) as [Hu W0].
      rewrite (bind_Done _ _ _ _ _
                 (iteration_eq u (q, g) W0 Hu)).
      pose proof (iteration_measure u q g W) as M.
      pose proof (iteration_wf u (q, g) W0 Hu) as W'.
      destruct (iteration_p u (q, g)) as [q2 g2]. simpl.
      apply IH; [assumption|lia].
Qed.

Lemma while_loop_terminates q g :
  wf n G (q, g) -> exists fuel g', while_loop fuel q g = Done tt g'.
Proof.
  intros W. exists (S (Z.to_nat (measure n (q, g)))).
  apply while_loop_terminates_at; [assumption|].
  lia.
Qed.

(** *** The whole of [dijkstra] *)

Hypothesis Hd0 : Z.of_nat (length (dist g0)) = n.
Hypothesis Hp0 : Z.of_nat (length (previous_node g0)) = n.
Variable s : Z.
Hypothesis Hs : vertex g0 s.

#[local] Set Default Proof Using "Hn Hnn HG Hd0 Hp0 Hs".

Lemma edge_cost_wf st u v :
  wf n G st -> edge_cost (snd st) u v = edge_cost g0 u v.
Proof. intros (Hgn & Hgg & _). unfold edge_cost. now rewrite Hgn, Hgg. Qed.

Lemma dijkstra_eq fuel :
  dijkstra fuel s g0
  = while_loop fuel (fst (entry_p s g0)) (snd (entry_p s g0)).
Proof.
  unfold dijkstra. now rewrite (bind_Done _ _ _ _ _ (entry_eq g0 s Hd0 Hp0 Hs)).
Qed.

Lemma dijkstra_terminates_g0 :
  exists fuel g', dijkstra fuel s g0 = Done tt g'.
Proof.
  destruct (while_loop_terminates [s] (snd (entry_p s g0)))
    as (fuel & g' & E).
  - apply (entry_wf g0 s Hs).
  - exists fuel, g'. now rewrite dijkstra_eq.
Qed.

(** Invariant rule for [dijkstra]. *)
Lemma dijkstra_rule (I : state -> Prop) :
  I (entry_p s g0) ->
  (forall st, I st -> wf n G st) ->
  (forall u q g, I (u :: q, g) -> I (iteration_p u (q, g))) ->
  forall fuel g', dijkstra fuel s g0 = Done tt g' -> I ([], g').
Proof.
  intros H0 Hwf Hstep fuel g' Hrun. rewrite dijkstra_eq in Hrun.
  apply (while_rule I Hwf Hstep fuel [s] (snd (entry_p s g0)) g');
    assumption.
Qed.

(** *** Unreachable vertices are never touched *)

Lemma inv_reach_entry : inv_reach g0 s (entry_p s g0).
Proof.
  split; [apply (entry_wf g0 s Hs)|]. split.
  - intros v [<-|[]]. now constructor.
  - intros v Hv H. destruct (Z.eq_dec v s) as [->|N]; [now constructor|].
    rewrite entry_dist_other, entry_prev in H by assumption. tauto.
Qed.

Lemma inv_reach_relax u k st :
  inv_reach g0 s st /\ reachable g0 s u ->
  0 <= u < n -> 0 <= k < n ->
  inv_reach g0 s (relax_p u k st) /\ reachable g0 s u.
Proof.
  destruct st as [q g]. intros [(W & Hq & Ht) Ru] Hu Hk.
  split; [|assumption].
  destruct (relax_cases u k q g W Hu Hk)
    as [[E _]|(q' & g' & E & Hc & Hlt & W' & Hin & Ed & Edv & Epv & Eo)];
    rewrite E.
  - split; [assumption|]. split; assumption.
  - rewrite (edge_cost_wf (q, g)) in Hc by assumption.
    assert (Rk : reachable g0 s k).
    { apply reach_edge with u; [assumption|].
      repeat split; try lia; assumption. }
    split; [assumption|]. simpl in *. split.
    + intros v Hv. apply Hin in Hv. destruct Hv as [->|Hv]; auto.
    + intros v Hv H. destruct (Z.eq_dec v k) as [->|N]; [assumption|].
      destruct (Eo v ltac:(unfold vertex in Hv; lia) N) as [E1 E2].
      rewrite E1, E2 in H. auto.
Qed.

Lemma inv_reach_step u q g :
  inv_reach g0 s (u :: q, g) -> inv_reach g0 s (iteration_p u (q, g)).
Proof.
  intros (W & Hq & Ht). destruct (wf_head u q g W) as [Hu W0].
  apply (iteration_rule
           (fun _ st => inv_reach g0 s st /\ reachable g0 s u) u (q, g)).
  - now destruct W0.
  - split; [|apply Hq; now left].
    split; [assumption|]. split; [|assumption].
    intros v Hv. apply Hq. now right.
  - intros k st' Hk H. now apply inv_reach_relax.
Qed.

Lemma inv_reach_final fuel g' :
  dijkstra fuel s g0 = Done tt g' -> inv_reach g0 s ([], g').
Proof.
  apply (dijkstra_rule (inv_reach g0 s)).
  - apply inv_reach_entry.
  - now intros st [W _].
  - apply inv_reach_step.
Qed.

(** *** The relaxation property *)

Lemma wf_dist_range st v :
  wf n G st -> 0 <= v < n -> int_range (at_ (dist (snd st)) v).
Proof.
  intros (_ & _ & Hd & _ & Hr & _) Hv.
  rewrite Forall_forall in Hr. apply Hr, at_In. lia.
Qed.

Lemma nonneg_edge u v :
  nonneg_costs g0 -> has_edge g0 u v -> 0 <= edge_cost g0 u v.
Proof using Hn Hnn HG.
  unfold nonneg_costs. rewrite forallb_forall.
  intros H (Hu & Hv & Hc). unfold vertex in *.
  destruct (flat_index_eq u v Hu Hv) as [_ B].
  specialize (H (edge_cost g0 u v)). unfold edge_cost in *.
  assert (In (at_ G (n * u + v)) G) by (apply at_In; lia).
  apply H in H0. lia.
Qed.

Lemma inv_relaxed_entry : inv_relaxed g0 (-1) 0 (entry_p s g0).
Proof.
  split; [apply (entry_wf g0 s Hs)|].
  intros x Hx. destruct (Z.eq_dec x s) as [->|N].
  - left. now left.
  - right. left. now apply entry_dist_other.
Qed.

Lemma inv_relaxed_extract u q g :
  inv_relaxed g0 (-1) 0 (u :: q, g) -> inv_relaxed g0 u 0 (q, g).
Proof.
  intros [W H]. destruct (wf_head u q g W) as [Hu W0].
  split; [assumption|]. intros x Hx. simpl.
  destruct (Z.eqb_spec x u) as [->|N].
  - right. right. intros v Hv. lia.
  - specialize (H x Hx). simpl in H.
    replace (x =? -1) with false in H by (unfold vertex in Hx; lia).
    destruct H as [[->|H]|H]; tauto.
Qed.

Lemma inv_relaxed_finish u st :
  0 <= u -> inv_relaxed g0 u n st -> inv_relaxed g0 (-1) 0 st.
Proof.
  intros Hu [W H]. split; [assumption|]. intros x Hx.
  specialize (H x Hx).
  replace (x =? -1) with false by (unfold vertex in Hx; lia).
  destruct (x =? u); assumption.
Qed.

Lemma inv_relaxed_relax u k st :
  0 <= u < n -> 0 <= k < n ->
  inv_relaxed g0 u k st -> inv_relaxed g0 u (k + 1) (relax_p u k st).
Proof.
  destruct st as [q g]. intros Hu Hk [W H].
  destruct (relax_cases u k q g W Hu Hk)
    as [[E Hc]|(q' & g' & E & Hc & Hlt & W' & Hin & Ed & Edv & Epv & Eo)];
    rewrite E; rewrite (edge_cost_wf (q, g)) in * by assumption;
    simpl in *.
  - split; [assumption|]. intros x Hx.
    destruct (H x Hx) as [Hq|[Hm|Hr]]; [tauto|tauto|].
    right. right. simpl in *.
    destruct (Z.eqb_spec x u) as [->|N]; [|assumption].
    intros v Hv He. destruct (Z.eq_dec v k) as [->|Nv].
    + tauto.
    + apply Hr; [lia|assumption].
  - split; [assumption|]. intros x Hx. simpl.
    destruct (Z.eq_dec x k) as [->|Nx]; [left; apply Hin; now left|].
    assert (Ex : at_ (dist g') x = at_ (dist g) x)
      by (apply Eo; unfold vertex in Hx; lia).
    destruct (H x Hx) as [Hq|[Hm|Hr]].
    + left. apply Hin. now right.
    + right. left. congruence.
    + right. right. simpl in Hr. intros v Hv He. rewrite Ex.
      destruct (Z.eq_dec v k) as [->|Nv].
      * rewrite Edv. destruct (Z.eqb_spec x u) as [->|N]; [lia|].
        specialize (Hr k Hk He). lia.
      * replace (at_ (dist g') v) with (at_ (dist g) v)
          by (symmetry; apply Eo; lia).
        apply Hr; [|assumption].
        destruct (x =? u); lia.
Qed.

Lemma inv_relaxed_step u q g :
  inv_relaxed g0 (-1) 0 (u :: q, g) ->
  inv_relaxed g0 (-1) 0 (iteration_p u (q, g)).
Proof.
  intros H. destruct (wf_head u q g (proj1 H)) as [Hu W0].
  apply inv_relaxed_finish with u; [lia|].
  apply (iteration_rule (fun k st => inv_relaxed g0 u k st) u (q, g)).
  - now destruct W0.
  - now apply inv_relaxed_extract.
  - intros k st' Hk H'. now apply inv_relaxed_relax.
Qed.

Lemma inv_relaxed_final fuel g' :
  dijkstra fuel s g0 = Done tt g' -> inv_relaxed g0 (-1) 0 ([], g').
Proof.
  apply (dijkstra_rule (inv_relaxed g0 (-1) 0)).
  - apply inv_relaxed_entry.
  - now intros st [W _].
  - apply inv_relaxed_step.
Qed.

Lemma relaxation_final fuel g' u v :
  nonneg_costs g0 ->
  dijkstra fuel s g0 = Done tt g' ->
  has_edge g0 u v ->
  at_ (dist g') v <= at_ (dist g') u + edge_cost g0 u v.
Proof.
  intros Hnn' Hrun He.
  destruct (inv_relaxed_final fuel g' Hrun) as [W H].
  pose proof (nonneg_edge u v Hnn' He) as Hc.
  destruct He as (Hu & Hv & Hne).
  pose proof (wf_dist_range _ u W Hu) as Ru.
  pose proof (wf_dist_range _ v W Hv) as Rv.
  unfold int_range in *. simpl in *.
  destruct (H u Hu) as [[]|[Hm|Hr]].
  - lia.
  - replace (u =? -1) with false in Hr by (unfold vertex in Hu; lia).
    specialize (Hr v Hv Hne).
    pose proof (wrap32_le (at_ (dist g') u + edge_cost g0 u v)).
    unfold add32 in Hr. lia.
Qed.

(** *** Predecessor chains, when no sum overflows *)

(** *** Predecessor chains, as long as no sum exceeds [INT_MAX] *)

Section NoWrap.

Hypothesis Hcosts : nonneg_costs g0.

#[local] Set Default Proof Using "Hn Hnn HG Hd0 Hp0 Hs Hcosts".

Lemma inv_paths_entry0 : inv_paths g0 s 0 (entry_p s g0).
Proof.
  split; [apply (entry_wf g0 s Hs)|].
  split.
  { intros v Hv. destruct (Z.eq_dec v s) as [->|N].
    - rewrite entry_dist_s by assumption. lia.
    - rewrite entry_dist_other by assumption. unfold INT_MAX. lia. }
  split; [now apply entry_dist_s|].
  split; [now apply entry_prev|].
  split; [lia|].
  split.
  { intros y [<-|[]]. rewrite entry_dist_s by assumption.
    unfold INT_MAX. lia. }
  split.
  { intros x (Hx & Hq & Hlt). exfalso.
    destruct (Z.eq_dec x s) as [->|N]; [apply Hq; now left|].
    rewrite entry_dist_other in Hlt by assumption. lia. }
  intros v Hv Hlt. destruct (Z.eq_dec v s) as [->|N].
  - exists [s]. split; [constructor|].
    split; [constructor; [intros []|constructor]|].
    split; [intros y []|].
    rewrite entry_dist_s by assumption. reflexivity.
  - rewrite entry_dist_other in Hlt by assumption. lia.
Qed.

Lemma inv_paths_extract0 m u q g :
  inv_paths g0 s m (u :: q, g) ->
  inv_paths g0 s (at_ (dist g) u) (q, g) /\ settled g0 (q, g) u.
Proof.
  intros (W & Hpos & Hs0 & Hsp & Hm & Hq & Hset & Hch). simpl in *.
  destruct (wf_head u q g W) as [Hu W0].
  destruct W as (_ & _ & _ & _ & _ & _ & Hsorted). simpl in Hsorted.
  assert (ND : NoDup (u :: q)).
  { apply sorted_NoDup with (ltDist (dist g)); [ltDist_order|assumption]. }
  inversion ND as [|? ? Hnotin _]; subst.
  assert (Su : settled g0 (q, g) u).
  { split; [exact Hu|]. split; [exact Hnotin|]. apply Hq. now left. }
  assert (Mono : forall x, settled g0 (u :: q, g) x -> settled g0 (q, g) x).
  { intros x (Hx & Hx' & Hlt). split; [assumption|]. split; [|assumption].
    simpl in *. tauto. }
  split; [|exact Su].
  split; [assumption|]. split; [assumption|]. simpl.
  split; [assumption|]. split; [assumption|].
  split; [now apply Hpos|].
  split.
  { intros y Hy. split; [|apply Hq; now right].
    pose proof (sorted_head _ _ _ _ Hsorted Hy) as L.
    apply ltDist_spec in L. lia. }
  split.
  { intros x (Hx & Hx' & Hlt). simpl in *.
    destruct (Z.eq_dec x u) as [->|N]; [lia|].
    assert (at_ (dist g) x <= m).
    { apply Hset. split; [assumption|]. split; [|assumption].
      simpl. intros [Eq|Hxq]; [congruence|contradiction]. }
    specialize (Hq u (or_introl eq_refl)). lia. }
  intros v Hv Hlt. destruct (Hch v Hv Hlt) as (l & Hc & Hnd & Ht & Hcost).
  exists l. split; [assumption|]. split; [assumption|].
  split; [|assumption]. intros y Hy. apply Mono. now apply Ht.
Qed.

(** In a good chain every vertex below the head is settled; so is the
    head when it is. *)
Lemma good_chain_settled0 st v l y :
  good_chain g0 s st v l -> settled g0 st v -> In y l -> settled g0 st y.
Proof.
  intros (Hc & _ & Ht & _) Sv Hy.
  destruct (chain_hd _ _ _ _ _ Hc) as [t ->].
  destruct Hy as [<-|Hy]; [assumption|]. now apply Ht.
Qed.

(** One step of the inner loop keeps the invariant when the sum it forms
    is at most [INT_MAX]. *)
Lemma inv_paths_relax0 u k st :
  0 <= u < n -> 0 <= k < n ->
  (has_edge g0 u k ->
   at_ (dist (snd st)) u + edge_cost g0 u k <= INT_MAX) ->
  inv_paths g0 s (at_ (dist (snd st)) u) st /\ settled g0 st u ->
  inv_paths g0 s (at_ (dist (snd (relax_p u k st))) u) (relax_p u k st)
  /\ settled g0 (relax_p u k st) u.
Proof.
  destruct st as [q g]. intros Hu Hk Hex [Hinv Su].
  pose proof Hinv as (W & Hpos & Hs0 & Hsp & Hm & Hq & Hset & Hch).
  simpl in Hinv, Hpos, Hs0, Hsp, Hm, Hq, Hset, Hch.
  destruct (relax_cases u k q g W Hu Hk)
    as [[E Hc]|(q' & g' & E & Hc & Hlt & W' & Hin & Ed & Edv & Epv & Eo)];
    rewrite E; [split; assumption|].
  rewrite (edge_cost_wf (q, g)) in * by assumption. simpl in *.
  assert (He : has_edge g0 u k) by (repeat split; try lia; assumption).
  destruct (Hch u Hu (proj2 (proj2 Su))) as (lu & Glu).
  pose proof (nonneg_edge u k Hcosts He) as Hc0.
  assert (Ex : add32 (at_ (dist g) u) (edge_cost g0 u k)
               = at_ (dist g) u + edge_cost g0 u k).
  { unfold add32. apply wrap32_small. specialize (Hex He).
    pose proof (Hpos u Hu). unfold int_range, INT_MIN. lia. }
  rewrite Ex in *.
  pose proof (wf_dist_range (q, g) k W Hk) as Rk.
  unfold int_range in Rk. simpl in Rk.
  set (c := edge_cost g0 u k) in *.
  assert (Nset : ~ settled g0 (q, g) k).
  { intros S. apply Hset in S. simpl in S. lia. }
  assert (Nku : k <> u) by (intros ->; lia).
  assert (Nks : k <> s) by (intros ->; lia).
  assert (Eu : at_ (dist g') u = at_ (dist g) u) by (apply Eo; lia).
  assert (Mono : forall y, settled g0 (q, g) y -> settled g0 (q', g') y).
  { intros y Sy. assert (y <> k) by (intros ->; contradiction).
    destruct Sy as (Hy & Hy' & Hylt). simpl in *.
    split; [assumption|]. split; simpl.
    - rewrite Hin. tauto.
    - unfold vertex in Hy.
      replace (at_ (dist g') y) with (at_ (dist g) y)
        by (symmetry; apply Eo; lia).
      assumption. }
  assert (Keep : forall v l,
             v <> k -> good_chain g0 s (q, g) v l ->
             good_chain g0 s (q', g') v l).
  { intros v l Nv (Hcl & Hnd & Ht & Hcost). simpl in *.
    pose proof (chain_vertices _ _ _ _ _ Hs Hcl) as Vl.
    rewrite Forall_forall in Vl.
    destruct (chain_hd _ _ _ _ _ Hcl) as [t ->].
    assert (Nk : forall x, In x (v :: t) -> x <> k).
    { intros x [<-|Hx]; [assumption|].
      intros ->. apply Nset. now apply Ht. }
    split; [|split; [assumption|split]]; cbn [fst snd].
    - apply chain_ext with (previous_node g); [assumption|].
      intros x Hx _. apply Eo; [|now apply Nk].
      specialize (Vl x Hx). unfold vertex in Vl. lia.
    - intros y Hy. apply Mono. now apply Ht.
    - rewrite Hcost. symmetry. apply Eo; [|assumption].
      specialize (Vl v (or_introl eq_refl)). unfold vertex in Vl. lia. }
  split; [|now apply Mono].
  split; [assumption|]. simpl.
  split.
  { intros v Hv. destruct (Z.eq_dec v k) as [->|N].
    - rewrite Edv. lia.
    - replace (at_ (dist g') v) with (at_ (dist g) v)
        by (symmetry; apply Eo; unfold vertex in Hv; lia).
      now apply Hpos. }
  split; [rewrite <- Hs0; apply Eo; unfold vertex in Hs; lia|].
  split; [rewrite <- Hsp; apply Eo; unfold vertex in Hs; lia|].
  split; [lia|].
  split.
  { intros y Hy. apply Hin in Hy. rewrite Eu.
    destruct (Z.eq_dec y k) as [->|N].
    - rewrite Edv. lia.
    - destruct Hy as [->|Hy]; [contradiction|].
      pose proof (proj1 (Forall_forall _ _)
                    (proj1 (proj2 (proj2 (proj2 (proj2 (proj2 W))))))
                    y Hy) as Ry.
      simpl in Ry.
      replace (at_ (dist g') y) with (at_ (dist g) y)
        by (symmetry; apply Eo; lia).
      now apply Hq. }
  split.
  { intros x (Hx & Hx' & Hxlt). simpl in *. rewrite Eu.
    assert (x <> k) by (intros ->; apply Hx', Hin; now left).
    unfold vertex in Hx.
    replace (at_ (dist g') x) with (at_ (dist g) x) in *
      by (symmetry; apply Eo; lia).
    apply Hset. split; [assumption|]. split; [|assumption].
    simpl. intros Hq'. apply Hx', Hin. now right. }
  intros v Hv Hvlt. destruct (Z.eq_dec v k) as [->|N].
  - exists (k :: lu).
    pose proof (Keep u lu (not_eq_sym Nku) Glu) as (Hcl & Hnd & Ht & Hcost).
    cbn [fst snd] in Hcl, Hcost.
    destruct (chain_hd _ _ _ _ _ Hcl) as [t El].
    assert (Nin : ~ In k lu).
    { intros Hk'. apply Nset.
      now apply (good_chain_settled0 (q, g) u lu k Glu Su). }
    split; [|split; [|split]]; cbn [fst snd tl].
    + now apply chain_step with u.
    + now constructor.
    + intros y Hy.
      apply (good_chain_settled0 (q', g') u lu y);
        [exact (conj Hcl (conj Hnd (conj Ht Hcost)))
        |now apply Mono|assumption].
    + rewrite El in *.
      change (chain_cost g0 (k :: u :: t))
        with (c + chain_cost g0 (u :: t)).
      rewrite Hcost, Edv, Eu. lia.
  - unfold vertex in Hv.
    replace (at_ (dist g') v) with (at_ (dist g) v) in Hvlt
      by (symmetry; apply Eo; lia).
    destruct (Hch v Hv Hvlt) as (l & Gl).
    exists l. now apply Keep.
Qed.

Hypothesis Hrun : no_wrap_run g0 s.

#[local] Set Default Proof Using "Hn Hnn HG Hd0 Hp0 Hs Hcosts Hrun".

Lemma inv_paths_pass m u q gq :
  loop_state (fst (entry_p s g0)) (snd (entry_p s g0)) (u :: q) gq ->
  inv_paths g0 s m (u :: q, gq) ->
  exists m', inv_paths g0 s m' (iteration_p u (q, gq)).
Proof.
  intros Hl H. destruct (wf_head u q gq (proj1 H)) as [Hu W0].
  pose proof (inv_paths_extract0 m u q gq H) as H1.
  assert (Hgn : number_of_nodes gq = n) by now destruct W0.
  pose (J := fun (k : Z) (st : state) =>
               st = relax_from (Z.to_nat k) u 0 (q, gq) /\
               inv_paths g0 s (at_ (dist (snd st)) u) st /\
               settled g0 st u).
  assert (Jn : J n (relax_from (Z.to_nat n) u 0 (q, gq))).
  { apply relax_from_rule; [lia| |].
    - split; [reflexivity|exact H1].
    - intros k st' Hk (Est & Hinv & Su). split.
      + replace (Z.to_nat (k + 1)) with (S (Z.to_nat k)) by lia.
        rewrite relax_from_snoc, Z.add_0_l, Z2Nat.id by lia.
        now rewrite <- Est.
      + apply inv_paths_relax0; [assumption|assumption| |now split].
        intros He.
        pose proof (for_range_relax_eq u (Z.to_nat k) 0 (q, gq) W0 Hu
                      ltac:(lia) ltac:(lia)) as Ef.
        rewrite <- Est in Ef. cbn [fst snd] in Ef.
        pose proof (edge_cost_wf st' u k (proj1 Hinv)) as Ee.
        pose proof (Hrun _ _ u q gq k (fst st') (snd st')
                      (entry_eq g0 s Hd0 Hp0 Hs) Hl Hk Ef) as B.
        rewrite Ee in B. apply B. now destruct He as (_ & _ & He). }
  exists (at_ (dist (snd (iteration_p u (q, gq)))) u).
  unfold iteration_p. cbn [snd]. rewrite Hgn. exact (proj1 (proj2 Jn)).
Qed.

Lemma loop_state_inv_paths_run q gq :
  loop_state (fst (entry_p s g0)) (snd (entry_p s g0)) q gq ->
  exists m, inv_paths g0 s m (q, gq).
Proof.
  induction 1 as [|u q gq q' g' Hl IH Hit].
  - exists 0. apply inv_paths_entry0.
  - destruct IH as [m Hm].
    destruct (wf_head u q gq (proj1 Hm)) as [Hu W].
    pose proof (iteration_eq u (q, gq) W Hu) as Eit.
    simpl in Eit. rewrite Eit in Hit. inversion Hit.
    rewrite <- surjective_pairing.
    now apply inv_paths_pass with m.
Qed.

Lemma inv_paths_final_run fuel g' :
  dijkstra fuel s g0 = Done tt g' -> exists m, inv_paths g0 s m ([], g').
Proof.
  intros Hd. rewrite dijkstra_eq in Hd.
  apply loop_state_inv_paths_run.
  exact (while_loop_loop_state _ _ fuel _ _ g' (loop_first _ _) Hd).
Qed.

End NoWrap.

(** *** Predecessor chains, when no path costs more than [INT_MAX] *)

Section NoOverflow.

Hypothesis Hcosts : nonneg_costs g0.
Hypothesis Hsums : no_overflow g0 s.

#[local] Set Default Proof Using "Hn Hnn HG Hd0 Hp0 Hs Hcosts Hsums".

Lemma inv_paths_entry : inv_paths g0 s 0 (entry_p s g0).
Proof. exact (inv_paths_entry0 Hcosts). Qed.

Lemma inv_paths_extract m u q g :
  inv_paths g0 s m (u :: q, g) ->
  inv_paths g0 s (at_ (dist g) u) (q, g) /\ settled g0 (q, g) u.
Proof. apply (inv_paths_extract0 Hcosts). Qed.

Lemma good_chain_settled st v l y :
  good_chain g0 s st v l -> settled g0 st v -> In y l -> settled g0 st y.
Proof. apply (good_chain_settled0 Hcosts). Qed.

(** The sum formed when [u] relaxes the edge to [k] is the cost of a
    path, so at most [INT_MAX]. *)
Lemma candidate_bound st u k l :
  good_chain g0 s st u l -> has_edge g0 u k ->
  at_ (dist (snd st)) u + edge_cost g0 u k <= INT_MAX.
Proof.
  intros (Hc & Hnd & _ & Hcost) He.
  destruct (chain_hd _ _ _ _ _ Hc) as [t ->].
  destruct (chain_rev_path _ _ _ _ _ Hs Hc) as [P1 P2].
  change (rev (u :: t)) with (rev t ++ [u]) in P1, P2.
  assert (B : path_cost g0 ((rev t ++ [u]) ++ [k]) <= INT_MAX).
  { apply Hsums.
    - now rewrite hd_error_snoc.
    - now apply is_path_snoc.
    - rewrite removelast_last.
      change (rev t ++ [u]) with (rev (u :: t)). now apply NoDup_rev. }
  rewrite path_cost_snoc in B.
  change (rev t ++ [u]) with (rev (u :: t)) in B.
  rewrite path_cost_rev, Hcost in B. exact B.
Qed.

(** It is exact. *)
Lemma candidate_exact st u k l :
  good_chain g0 s st u l -> has_edge g0 u k ->
  0 <= at_ (dist (snd st)) u ->
  add32 (at_ (dist (snd st)) u) (edge_cost g0 u k)
  = at_ (dist (snd st)) u + edge_cost g0 u k.
Proof.
  intros Hg He Hpos.
  pose proof (nonneg_edge u k Hcosts He) as Hc0.
  pose proof (candidate_bound st u k l Hg He) as B.
  unfold add32. apply wrap32_small. unfold int_range, INT_MIN. lia.
Qed.

Lemma inv_paths_relax u k st :
  0 <= u < n -> 0 <= k < n ->
  inv_paths g0 s (at_ (dist (snd st)) u) st /\ settled g0 st u ->
  inv_paths g0 s (at_ (dist (snd (relax_p u k st))) u) (relax_p u k st)
  /\ settled g0 (relax_p u k st) u.
Proof.
  intros Hu Hk [Hinv Su].
  apply (inv_paths_relax0 Hcosts); [assumption|assumption| |now split].
  intros He.
  destruct Hinv as (_ & _ & _ & _ & _ & _ & _ & Hch).
  destruct (Hch u Hu (proj2 (proj2 Su))) as (lu & Glu).
  exact (candidate_bound st u k lu Glu He).
Qed.

Lemma inv_paths_step u q g :
  (exists m, inv_paths g0 s m (u :: q, g)) ->
  exists m, inv_paths g0 s m (iteration_p u (q, g)).
Proof.
  intros [m H]. destruct (wf_head u q g (proj1 H)) as [Hu W0].
  pose proof (inv_paths_extract m u q g H) as H1.
  assert (J : inv_paths g0 s
                (at_ (dist (snd (iteration_p u (q, g)))) u)
                (iteration_p u (q, g))
              /\ settled g0 (iteration_p u (q, g)) u).
  { apply (iteration_rule
             (fun _ st => inv_paths g0 s (at_ (dist (snd st)) u) st
                          /\ settled g0 st u) u (q, g)).
    - now destruct W0.
    - exact H1.
    - intros k st' Hk H'. now apply inv_paths_relax. }
  eexists. exact (proj1 J).
Qed.

Lemma inv_paths_final fuel g' :
  dijkstra fuel s g0 = Done tt g' -> exists m, inv_paths g0 s m ([], g').
Proof.
  apply (dijkstra_rule (fun st => exists m, inv_paths g0 s m st)).
  - exists 0. apply inv_paths_entry.
  - now intros st [m [W _]].
  - apply inv_paths_step.
Qed.

End NoOverflow.


(** *** Distances never grow *)

Lemma relax_dist_le u k st w :
  wf n G st -> 0 <= u < n -> 0 <= k < n -> 0 <= w ->
  at_ (dist (snd (relax_p u k st))) w <= at_ (dist (snd st)) w.
Proof.
  destruct st as [q g]. intros W Hu Hk Hw.
  destruct (relax_cases u k q g W Hu Hk)
    as [[E _]|(q' & g' & E & _ & Hlt & _ & _ & _ & Edv & _ & Eo)];
    rewrite E; simpl; [lia|].
  destruct (Z.eq_dec w k) as [->|N]; [lia|].
  destruct (Eo w Hw N) as [-> _]. lia.
Qed.

Lemma iteration_dist_le u st w :
  wf n G st -> 0 <= u < n -> 0 <= w ->
  at_ (dist (snd (iteration_p u st))) w <= at_ (dist (snd st)) w.
Proof.
  intros W Hu Hw.
  apply (iteration_rule
           (fun _ st' => wf n G st' /\
                         at_ (dist (snd st')) w <= at_ (dist (snd st)) w)
           u st).
  - now destruct W.
  - split; [assumption|lia].
  - intros k st' Hk [W' L]. split; [now apply relax_wf|].
    pose proof (relax_dist_le u k st' w W' Hu Hk Hw). lia.
Qed.

Lemma dist_le_entry fuel g' :
  dijkstra fuel s g0 = Done tt g' ->
  wf n G ([], g') /\
  forall w, 0 <= w ->
            at_ (dist g') w <= at_ (dist (snd (entry_p s g0))) w.
Proof.
  apply (dijkstra_rule
           (fun st => wf n G st /\
                      forall w, 0 <= w ->
                                at_ (dist (snd st)) w
                                <= at_ (dist (snd (entry_p s g0))) w)).
  - split; [apply (entry_wf g0 s Hs)|]. intros w _. lia.
  - now intros st [W _].
  - intros u q g [W H]. destruct (wf_head u q g W) as [Hu W0].
    split; [now apply iteration_wf|].
    intros w Hw. specialize (H w Hw).
    pose proof (iteration_dist_le u (q, g) w W0 Hu Hw). simpl in *. lia.
Qed.

(** *** Predecessor entries are real edges *)

Lemma inv_pred_entry : inv_pred g0 (entry_p s g0).
Proof.
  split; [apply (entry_wf g0 s Hs)|].
  intros v Hv. left. now apply entry_prev.
Qed.

Lemma inv_pred_relax u k st :
  0 <= u < n -> 0 <= k < n ->
  inv_pred g0 st -> inv_pred g0 (relax_p u k st).
Proof.
  destruct st as [q g]. intros Hu Hk [W H].
  destruct (relax_cases u k q g W Hu Hk)
    as [[E _]|(q' & g' & E & Hc & Hlt & W' & _ & _ & Edv & Epv & Eo)];
    rewrite E; [split; assumption|].
  rewrite (edge_cost_wf (q, g)) in * by assumption. simpl in *.
  pose proof (wf_dist_range (q, g) k W Hk) as Rk.
  unfold int_range in Rk. simpl in Rk.
  split; [assumption|]. intros v Hv. simpl.
  destruct (Z.eq_dec v k) as [->|N].
  - right. rewrite Epv, Edv. split; [|lia].
    repeat split; try lia; assumption.
  - destruct (Eo v ltac:(unfold vertex in Hv; lia) N) as [E1 E2].
    rewrite E1, E2. now apply H.
Qed.

Lemma inv_pred_final fuel g' :
  dijkstra fuel s g0 = Done tt g' -> inv_pred g0 ([], g').
Proof.
  apply (dijkstra_rule (inv_pred g0)).
  - apply inv_pred_entry.
  - now intros st [W _].
  - intros u q g [W H]. destruct (wf_head u q g W) as [Hu W0].
    apply (iteration_rule (fun _ st => inv_pred g0 st) u (q, g)).
    + now destruct W0.
    + split; assumption.
    + intros k st' Hk H'. now apply inv_pred_relax.
Qed.


(** *** Settled vertices are final, when no sum overflows *)

Section Settled.

Hypothesis Hcosts : nonneg_costs g0.
Hypothesis Hsums : no_overflow g0 s.

#[local] Set Default Proof Using "Hn Hnn HG Hd0 Hp0 Hs Hcosts Hsums".

Lemma chain_unique prev v l1 :
  chain g0 prev s v l1 -> forall l2, chain g0 prev s v l2 -> l1 = l2.
Proof.
  induction 1 as [|v u l Hv Hp He Hc IH]; intros l2 H2.
  - inversion H2; [reflexivity|contradiction].
  - inversion H2 as [|v' u' l' Hv' Hp' He' Hc']; subst; [contradiction|].
    f_equal. now apply IH.
Qed.

Lemma settled_relax u k st x :
  0 <= u < n -> 0 <= k < n ->
  inv_paths g0 s (at_ (dist (snd st)) u) st -> settled g0 st u ->
  settled g0 st x ->
  settled g0 (relax_p u k st) x /\
  at_ (dist (snd (relax_p u k st))) x = at_ (dist (snd st)) x /\
  at_ (previous_node (snd (relax_p u k st))) x
  = at_ (previous_node (snd st)) x.
Proof.
  destruct st as [q g]. intros Hu Hk Hinv Su Sx.
  pose proof Hinv as (W & Hpos & _ & _ & _ & _ & Hset & Hch).
  simpl in Hinv, Hpos, Hset, Hch.
  destruct (relax_cases u k q g W Hu Hk)
    as [[E _]|(q' & g' & E & Hc & Hlt & _ & Hin & _ & _ & _ & Eo)];
    rewrite E; [now split|].
  rewrite (edge_cost_wf (q, g)) in * by assumption. simpl in *.
  assert (He : has_edge g0 u k) by (repeat split; try lia; assumption).
  destruct (Hch u Hu (proj2 (proj2 Su))) as (lu & Glu).
  pose proof (candidate_exact Hcosts Hsums (q, g) u k lu Glu He (Hpos u Hu))
    as Ex.
  simpl in Ex. rewrite Ex in Hlt.
  pose proof (nonneg_edge u k Hcosts He) as Hc0.
  pose proof (Hset x Sx) as Lx. simpl in Lx.
  assert (N : x <> k) by (intros ->; lia).
  destruct Sx as (Hx & Hxq & Hxlt). simpl in *.
  destruct (Eo x ltac:(unfold vertex in Hx; lia) N) as [E1 E2].
  split; [|now split].
  split; [assumption|]. split; simpl.
  - rewrite Hin. tauto.
  - now rewrite E1.
Qed.

Lemma settled_iteration m u q g x :
  inv_paths g0 s m (u :: q, g) ->
  x = u \/ settled g0 (u :: q, g) x ->
  settled g0 (iteration_p u (q, g)) x /\
  at_ (dist (snd (iteration_p u (q, g)))) x = at_ (dist g) x /\
  at_ (previous_node (snd (iteration_p u (q, g)))) x
  = at_ (previous_node g) x.
Proof.
  intros H Hx. destruct (wf_head u q g (proj1 H)) as [Hu W0].
  destruct (inv_paths_extract Hcosts Hsums m u q g H) as [H1 Su].
  assert (Sx : settled g0 (q, g) x).
  { destruct Hx as [->|(Hx & Hxq & Hxlt)]; [assumption|].
    split; [assumption|]. split; [|assumption].
    simpl in *. tauto. }
  apply (iteration_rule
           (fun _ st =>
              (inv_paths g0 s (at_ (dist (snd st)) u) st
               /\ settled g0 st u) /\
              settled g0 st x /\
              at_ (dist (snd st)) x = at_ (dist g) x /\
              at_ (previous_node (snd st)) x = at_ (previous_node g) x)
           u (q, g)).
  - now destruct W0.
  - split; [split; assumption|]. now split.
  - intros k st' Hk [[Hi Su'] (Sx' & Ed & Ep)].
    split; [now apply (inv_paths_relax Hcosts Hsums)|].
    destruct (settled_relax u k st' x Hu Hk Hi Su' Sx') as (S2 & E1 & E2).
    split; [assumption|]. split; congruence.
Qed.

Lemma inv_done_entry : inv_done g0 s [] (entry_p s g0).
Proof.
  split; [exists 0; apply (inv_paths_entry Hcosts Hsums)|].
  split; [constructor|]. intros x [].
Qed.

Lemma inv_done_step done u q g :
  inv_done g0 s done (u :: q, g) ->
  inv_done g0 s (u :: done) (iteration_p u (q, g)).
Proof.
  intros ([m H] & ND & Hd). split; [|split].
  - apply (inv_paths_step Hcosts Hsums). now exists m.
  - constructor; [|assumption]. intros Hu.
    destruct (Hd u Hu) as (_ & Hq & _). apply Hq. now left.
  - intros x [<-|Hx].
    + apply (settled_iteration m u q g u H). now left.
    + apply (settled_iteration m u q g x H). right. now apply Hd.
Qed.

Lemma inv_done_length done st :
  inv_done g0 s done st -> Z.of_nat (length done) <= n.
Proof.
  intros (_ & ND & Hd). apply bounded_NoDup_length; [lia|assumption|].
  apply Forall_forall. intros x Hx. now destruct (Hd x Hx).
Qed.

Lemma while_loop_passes fuel :
  forall done q g,
    inv_done g0 s done (q, g) ->
    n < Z.of_nat (length done) + Z.of_nat fuel ->
    exists g', while_loop fuel q g = Done tt g'.
Proof.
  induction fuel as [|f IH]; intros done q g H Hf.
  - pose proof (inv_done_length done (q, g) H). lia.
  - destruct q as [|u q]; simpl; [now exists g|].
    destruct H as ([m Hm] & ND & Hd).
    destruct (wf_head u q g (proj1 Hm)) as [Hu W0].
    rewrite (bind_Done _ _ _ _ _ (iteration_eq u (q, g) W0 Hu)).
    pose proof (inv_done_step done u q g
                  (conj (ex_intro _ m Hm) (conj ND Hd))) as H'.
    destruct (iteration_p u (q, g)) as [q2 g2]. simpl.
    apply (IH (u :: done)); [assumption|]. simpl length. lia.
Qed.

Lemma dijkstra_passes :
  exists g', dijkstra (S (Z.to_nat n)) s g0 = Done tt g'.
Proof.
  rewrite dijkstra_eq.
  apply (while_loop_passes (S (Z.to_nat n)) []).
  - apply inv_done_entry.
  - simpl length. lia.
Qed.

Lemma loop_state_inv_paths q gq :
  loop_state (fst (entry_p s g0)) (snd (entry_p s g0)) q gq ->
  exists m, inv_paths g0 s m (q, gq).
Proof.
  induction 1 as [|u q gq q' g' Hl IH Hit].
  - exists 0. apply (inv_paths_entry Hcosts Hsums).
  - destruct IH as [m Hm].
    destruct (wf_head u q gq (proj1 Hm)) as [Hu W].
    pose proof (iteration_eq u (q, gq) W Hu) as Eit.
    simpl in Eit. rewrite Eit in Hit. inversion Hit.
    rewrite <- surjective_pairing.
    apply (inv_paths_step Hcosts Hsums). now exists m.
Qed.

End Settled.


End Engine.

(** ** A sufficient condition for the absence of overflow *)

Lemma path_cost_bound g p C :
  0 <= C ->
  (forall a b, has_edge g a b -> edge_cost g a b <= C) ->
  is_path g p ->
  path_cost g p <= Z.of_nat (pred (length p)) * C.
Proof.
  intros HC Hedge. induction p as [|a p IH]; intros Hp; [simpl; lia|].
  destruct p as [|b p]; [simpl; lia|].
  destruct Hp as [Hab Hp]. specialize (IH Hp). specialize (Hedge a b Hab).
  change (path_cost g (a :: b :: p))
    with (edge_cost g a b + path_cost g (b :: p)).
  simpl length in *. simpl pred in *. nia.
Qed.

Lemma small_costs_no_overflow g s :
  0 < number_of_nodes g ->
  number_of_nodes g * number_of_nodes g <= INT_MAX ->
  Z.of_nat (length (graph g)) = number_of_nodes g * number_of_nodes g ->
  small_costs g -> no_overflow g s.
Proof.
  intros Hn Hnn HG Hsmall p Hhd Hpath Hnd.
  set (n := number_of_nodes g) in *.
  set (C := INT_MAX / n).
  assert (HC : 0 <= C) by (apply Z.div_pos; unfold INT_MAX; lia).
  assert (Hedge : forall a b, has_edge g a b -> edge_cost g a b <= C).
  { intros a b (Ha & Hb & _). unfold vertex in *. fold n in Ha, Hb.
    destruct (flat_index_eq g Hn Hnn HG a b Ha Hb) as [_ B].
    unfold small_costs in Hsmall. rewrite forallb_forall in Hsmall.
    assert (I : In (edge_cost g a b) (graph g)).
    { unfold edge_cost. apply at_In. fold n. lia. }
    apply Hsmall in I. fold n in I.
    apply Z.div_le_lower_bound; lia. }
  pose proof (path_cost_bound g p C HC Hedge Hpath) as B.
  destruct p as [|a0 p0]; [discriminate|].
  destruct (exists_last (l := a0 :: p0)) as (l' & a & E); [discriminate|].
  rewrite E in *. rewrite removelast_last in Hnd.
  apply is_path_vertices in Hpath. apply Forall_app in Hpath.
  destruct Hpath as [Vl _].
  assert (L : Z.of_nat (length l') <= n).
  { apply bounded_NoDup_length; [lia|assumption|exact Vl]. }
  rewrite length_app in B. simpl in B.
  replace (pred (length l' + 1)) with (length l') in B by lia.
  pose proof (Z.mul_div_le INT_MAX n Hn). fold C in H. nia.
Qed.

(** ** Valid inputs *)

Lemma valid_state_parts g :
  valid_state g ->
  0 < number_of_nodes g /\
  number_of_nodes g * number_of_nodes g <= INT_MAX /\
  Z.of_nat (length (graph g)) = number_of_nodes g * number_of_nodes g /\
  Z.of_nat (length (dist g)) = number_of_nodes g /\
  Z.of_nat (length (previous_node g)) = number_of_nodes g.
Proof. intros (? & ? & ? & _ & ? & ?). auto. Qed.

Lemma dijkstra_total g s :
  valid_state g -> vertex g s ->
  exists fuel g', dijkstra fuel s g = Done tt g'.
Proof.
  intros V Hs. destruct (valid_state_parts g V) as (Hn & Hnn & HG & Hd & Hp).
  now apply dijkstra_terminates_g0.
Qed.

Lemma scenario_A_valid : valid_state scenario_A_globals.
Proof.
  unfold valid_state, scenario_A_globals, INT_MAX. simpl.
  repeat split; try lia; reflexivity.
Defined.

Lemma scenario_A_no_overflow : no_overflow scenario_A_globals 0.
Proof.
  apply small_costs_no_overflow; unfold INT_MAX; simpl; try lia.
  reflexivity.
Defined.

Lemma scenario_A_vertex v : 0 <= v < 3 -> vertex scenario_A_globals v.
Proof. intros H. exact H. Defined.

(** ** Sizing and loading *)

Lemma create_startup n :
  0 < n < max_nodes ->
  create (with_n startup n)
  = Done tt (mkGlobals n (repeat 0 (Z.to_nat (n * n)))
               (repeat 0 (Z.to_nat n)) (repeat 0 (Z.to_nat n))).
Proof.
  intros Hn. unfold max_nodes in Hn. unfold create, resize. simpl.
  unfold mul32. rewrite wrap32_small
    by (unfold int_range, INT_MIN, INT_MAX; nia).
  now rewrite !firstn_nil, !Nat.sub_0_r.
Qed.

Lemma with_graph_same g : with_graph g (graph g) = g.
Proof. now destruct g. Qed.

Lemma last_shift (l : list Z) x d : last (x :: l) d = last l x.
Proof.
  revert x d. induction l as [|a l IH]; intros x d; [reflexivity|].
  change (last (x :: a :: l) d) with (last (a :: l) d).
  now rewrite (IH a d), (IH a x).
Qed.

Lemma load_loop_eof count i st v g :
  eofbit st = true -> load_loop count i st v g = Done (st, v) g.
Proof. intros E. destruct count; simpl; [|rewrite E]; reflexivity. Qed.

Lemma in_int_spec x : in_int x = true <-> int_range x.
Proof.
  unfold in_int, int_range. rewrite andb_true_iff, !Z.leb_le. tauto.
Qed.

Lemma clamp_in x : in_int x = true -> clamp x = x.
Proof.
  intros H. apply in_int_spec in H. unfold int_range in H. unfold clamp.
  replace (INT_MAX <? x) with false by (symmetry; apply Z.ltb_ge; lia).
  now replace (x <? INT_MIN) with false by (symmetry; apply Z.ltb_ge; lia).
Qed.

Lemma int_prefix_all ts : all_int ts = true -> int_prefix ts = ts.
Proof.
  induction ts as [|x ts IH]; [reflexivity|]. simpl. intros H.
  apply andb_true_iff in H. destruct H as [Hx Hr].
  change (in_int x = true) in Hx. rewrite Hx. now rewrite IH.
Qed.

(** On a file of integers within [int] the matrix is: the integers, the
    stale entry, zeros. *)
Lemma loaded_matrix_int count st v0 :
  all_int (tokens st) = true ->
  loaded_matrix count st v0
  = firstn count (tokens st)
      ++ stale_write count st v0
      ++ repeat 0 (count - length (tokens st)
                   - length (stale_write count st v0)).
Proof.
  intros H. unfold loaded_matrix, stale_write.
  rewrite (int_prefix_all _ H), skipn_all.
  rewrite <- app_assoc. f_equal.
  destruct (Nat.ltb_spec (length (tokens st)) count) as [L|L].
  - destruct (count - length (tokens st))%nat as [|m] eqn:Em; [lia|].
    simpl tail_writes. simpl andb.
    rewrite length_app, length_firstn.
    destruct (trailing_space st); cbn [length]; do 2 f_equal; lia.
  - replace (count - length (tokens st))%nat with O by lia. simpl.
    rewrite app_nil_r, length_firstn.
    replace (count - Nat.min count (length (tokens st)))%nat with O by lia.
    reflexivity.
Qed.

Lemma loaded_matrix_cons c st st1 x rest v :
  tokens st = x :: rest -> tokens st1 = rest -> in_int x = true ->
  trailing_space st1 = trailing_space st ->
  loaded_matrix (S c) st v = x :: loaded_matrix c st1 x.
Proof.
  intros Et E1 Hx Es. unfold loaded_matrix.
  rewrite Et, E1, Es. cbn [int_prefix]. rewrite Hx, last_shift.
  reflexivity.
Qed.

Lemma stream_ok_eof st :
  stream_ok st -> eofbit st = true ->
  tokens st = [] /\ trailing_space st = false.
Proof.
  intros [_ He] E. rewrite E in He. destruct (tokens st); [|discriminate].
  split; [reflexivity|]. now destruct (trailing_space st).
Qed.

(** Once fail is set without eof, every pass writes the variable as it
    is. *)
Lemma load_loop_failed count :
  forall i st v g pre t,
    graph g = pre ++ t -> length t = count ->
    Z.of_nat (length pre) = i ->
    failbit st = true -> eofbit st = false ->
    exists st',
      load_loop count i st v g
      = Done (st', v) (with_graph g (pre ++ repeat v count)).
Proof.
  induction count as [|c IH]; intros i st v g pre t Hg Ht Hi Hf He.
  - exists st. simpl. unfold ret. destruct t; [|discriminate].
    rewrite <- Hg. now rewrite with_graph_same.
  - destruct t as [|y t]; [discriminate|].
    simpl load_loop. rewrite He. unfold stream_read. rewrite He, Hf.
    change (false || true) with true. cbv iota.
    assert (B : 0 <= i < Z.of_nat (length (graph g))).
    { rewrite Hg, length_app. simpl. lia. }
    unfold GraphSet_i, bind, write_graph, lift_write.
    rewrite vset_in by exact B.
    set (g1 := with_graph g _).
    set (st1 := mkStream _ _ _ _).
    destruct (IH (i + 1) st1 v g1 (pre ++ [v]) t) as (st' & E).
    { unfold g1. simpl. rewrite Hg, <- Hi, Nat2Z.id.
      rewrite upd_app. now rewrite <- app_assoc. }
    { simpl in Ht. lia. }
    { rewrite length_app. simpl. lia. }
    { reflexivity. }
    { reflexivity. }
    exists st'. rewrite E. f_equal. unfold g1, with_graph. simpl.
    now rewrite <- app_assoc.
Qed.

(** The loading loop on a stream that is [stream_ok]. *)
Lemma load_loop_spec count :
  forall i st v g pre,
    graph g = pre ++ repeat 0 count ->
    Z.of_nat (length pre) = i ->
    stream_ok st ->
    exists st' v',
      load_loop count i st v g
      = Done (st', v') (with_graph g (pre ++ loaded_matrix count st v)).
Proof.
  induction count as [|c IH]; intros i st v g pre Hg Hi Hok.
  - exists st, v. simpl. unfold ret. simpl in Hg.
    unfold loaded_matrix. simpl.
    rewrite <- Hg. now rewrite with_graph_same.
  - simpl load_loop. destruct (eofbit st) eqn:Ee.
    + exists st, v. destruct (stream_ok_eof st Hok Ee) as [Et Es].
      unfold loaded_matrix. rewrite Et, Es. simpl.
      change (0 :: repeat 0 c) with (repeat 0 (S c)).
      rewrite <- Hg. unfold ret. now rewrite with_graph_same.
    + assert (B : 0 <= i < Z.of_nat (length (graph g))).
      { rewrite Hg, length_app. simpl. lia. }
      destruct Hok as [Hf He]. unfold stream_read. rewrite Ee, Hf.
      change (false || false) with false. cbv iota.
      destruct (tokens st) as [|x rest] eqn:Et.
      * assert (Es : trailing_space st = true).
        { rewrite Ee in He. now destruct (trailing_space st). }
        unfold GraphSet_i, bind, write_graph, lift_write.
        rewrite vset_in by exact B.
        set (g1 := with_graph g _).
        rewrite load_loop_eof by reflexivity.
        eexists _, _. f_equal. unfold g1, with_graph. simpl. f_equal.
        unfold loaded_matrix. rewrite Et, Es. simpl.
        rewrite Hg, <- Hi, Nat2Z.id. simpl repeat. rewrite upd_app.
        now rewrite Nat.sub_0_r.
      * unfold GraphSet_i, bind, write_graph, lift_write.
        rewrite vset_in by exact B.
        set (g1 := with_graph g _).
        set (st1 := mkStream rest _ _ _).
        assert (Eg1 : graph g1 = (pre ++ [clamp x]) ++ repeat 0 c).
        { unfold g1. simpl. rewrite Hg, <- Hi, Nat2Z.id.
          simpl repeat. rewrite upd_app. now rewrite <- app_assoc. }
        assert (El : Z.of_nat (length (pre ++ [clamp x])) = i + 1).
        { rewrite length_app. simpl. lia. }
        destruct (in_int x) eqn:Hx.
        -- destruct (IH (i + 1) st1 (clamp x) g1 (pre ++ [clamp x]))
             as (st' & v' & E); [exact Eg1|exact El| |].
           { unfold stream_ok, st1. simpl. split; reflexivity. }
           exists st', v'. rewrite E. f_equal. unfold g1, with_graph.
           simpl. f_equal.
           rewrite (loaded_matrix_cons c st st1 x rest v Et eq_refl Hx
                      eq_refl).
           rewrite (clamp_in x Hx), <- app_assoc. reflexivity.
        -- assert (Em : loaded_matrix (S c) st v
                        = clamp x
                            :: (if eofbit st1 then repeat 0 c
                                else repeat (clamp x) c)).
           { unfold loaded_matrix. rewrite Et. cbn [int_prefix].
             rewrite Hx. simpl. unfold st1. simpl.
             destruct rest as [|y rest'].
             - destruct (trailing_space st); simpl.
               + rewrite repeat_length, Nat.sub_diag. simpl.
                 now rewrite app_nil_r.
               + now rewrite Nat.sub_0_r.
             - simpl. rewrite repeat_length, Nat.sub_diag. simpl.
               now rewrite app_nil_r. }
           rewrite Em. destruct (eofbit st1) eqn:E1.
           ++ rewrite load_loop_eof by exact E1.
              eexists _, _. f_equal. unfold g1, with_graph. simpl.
              f_equal. rewrite Hg, <- Hi, Nat2Z.id. simpl repeat.
              now rewrite upd_app.
           ++ destruct (load_loop_failed c (i + 1) st1 (clamp x) g1
                          (pre ++ [clamp x]) (repeat 0 c))
                as (st' & E);
                [exact Eg1|apply repeat_length|exact El|reflexivity
                |exact E1|].
              exists st', (clamp x). rewrite E. f_equal.
              unfold g1, with_graph. simpl. f_equal.
              now rewrite <- app_assoc.
Qed.

(** Three integers for four entries, white space after the last: the
    fourth entry is a copy of the third integer. *)
Example load_three_of_four :
  exists st' v',
    (create ;; load_loop 4 0 (file [5; 6; 7]) 9) (with_n startup 2)
    = Done (st', v') (mkGlobals 2 [5; 6; 7; 7] [0; 0] [0; 0]).
Proof. do 2 eexists. vm_compute. reflexivity. Qed.

(** An integer outside [int] is stored as [INT_MAX] and ends all
    reading: the integer after it never reaches the matrix. *)
Example load_out_of_range :
  exists st' v',
    (create ;; load_loop 4 0 (file [5; 3000000000; 6]) 9) (with_n startup 2)
    = Done (st', v')
        (mkGlobals 2 [5; INT_MAX; INT_MAX; INT_MAX] [0; 0] [0; 0]).
Proof. do 2 eexists. vm_compute. reflexivity. Qed.

(** The same integer at the very end of the file sets eof as well, and
    the loop stops. *)
Example load_out_of_range_at_end :
  exists st' v',
    (create ;; load_loop 4 0 (mkStream [5; -3000000000] false false false) 9)
      (with_n startup 2)
    = Done (st', v') (mkGlobals 2 [5; INT_MIN; 0; 0] [0; 0] [0; 0]).
Proof. do 2 eexists. vm_compute. reflexivity. Qed.

(** The loading loop on any stream: it ends, and changes nothing but
    entries of the matrix. *)
Lemma load_loop_shape count :
  forall i st v g,
    0 <= i -> i + Z.of_nat count <= Z.of_nat (length (graph g)) ->
    exists st' v' m,
      load_loop count i st v g = Done (st', v') (with_graph g m) /\
      length m = length (graph g).
Proof.
  induction count as [|c IH]; intros i st v g Hi Hl.
  - exists st, v, (graph g). simpl. unfold ret.
    now rewrite with_graph_same.
  - simpl load_loop. destruct (eofbit st).
    + exists st, v, (graph g). unfold ret. now rewrite with_graph_same.
    + destruct (stream_read st v) as [v1 st1].
      unfold GraphSet_i, bind, write_graph, lift_write.
      rewrite vset_in by lia.
      set (g1 := with_graph g _).
      destruct (IH (i + 1) st1 v1 g1) as (st' & v' & m & E & Lm).
      { lia. }
      { unfold g1. simpl. rewrite upd_length. lia. }
      exists st', v', m. rewrite E. split; [reflexivity|].
      rewrite Lm. unfold g1. simpl. apply upd_length.
Qed.

(** ** The states of the loop *)

Lemma loop_state_wf g s q0 g1 q gq :
  valid_state g -> vertex g s ->
  dijkstra_entry s g = Done q0 g1 ->
  loop_state q0 g1 q gq ->
  wf (number_of_nodes g) (graph g) (q, gq).
Proof.
  intros V Hs He Hl.
  destruct (valid_state_parts g V) as (Hn & Hnn & HG & Hd & Hp).
  rewrite (entry_eq g s Hd Hp Hs) in He. inversion He; subst q0 g1. clear He.
  induction Hl as [|u q gq q' g' Hl IH Hit].
  - apply (entry_wf g s Hs).
  - destruct (wf_head g Hn Hnn HG u q gq IH) as [Hu W].
    pose proof (iteration_eq g Hn Hnn HG u (q, gq) W Hu) as Eit.
    simpl in Eit. rewrite Eit in Hit. inversion Hit.
    rewrite <- surjective_pairing.
    now apply iteration_wf.
Qed.

(** ** Runs on which no sum exceeds [INT_MAX] *)



(** When no path from [s] that repeats no vertex before its last step
    costs more than [INT_MAX], no sum of the run exceeds it. *)
Lemma no_overflow_no_wrap g s :
  valid_state g -> nonneg_costs g -> vertex g s -> no_overflow g s ->
  no_wrap_run g s.
Proof.
  intros V Hc Hs Ho q0 g1 u q gq v qv gv He Hl Hv Hf Hedge.
  destruct (valid_state_parts g V) as (Hn & Hnn & HG & Hd & Hp).
  rewrite (entry_eq g s Hd Hp Hs) in He. inversion He; subst q0 g1.
  clear He.
  destruct (loop_state_inv_paths g Hn Hnn HG Hd Hp s Hs Hc Ho _ _ Hl)
    as [m Hm].
  destruct (wf_head g Hn Hnn HG u q gq (proj1 Hm)) as [Hu W0].
  pose proof (inv_paths_extract g Hn Hnn HG Hd Hp s Hs Hc Ho m u q gq Hm)
    as H1.
  pose proof (for_range_relax_eq g Hn Hnn HG u (Z.to_nat v) 0 (q, gq) W0 Hu
                ltac:(lia) ltac:(lia)) as Ef.
  cbn [fst snd] in Ef. rewrite Ef in Hf. inversion Hf; subst qv gv.
  clear Hf Ef.
  assert (Jv : inv_paths g s
                 (at_ (dist (snd (relax_from (Z.to_nat v) u 0 (q, gq)))) u)
                 (relax_from (Z.to_nat v) u 0 (q, gq))
               /\ settled g (relax_from (Z.to_nat v) u 0 (q, gq)) u).
  { apply (relax_from_rule
             (fun _ st => inv_paths g s (at_ (dist (snd st)) u) st
                          /\ settled g st u));
      [lia|exact H1|].
    intros j st' Hj H'.
    apply (inv_paths_relax g Hn Hnn HG Hd Hp s Hs Hc Ho);
      [assumption|lia|assumption]. }
  set (st := relax_from _ _ _ _) in *.
  destruct Jv as [Hinv Su].
  pose proof (edge_cost_wf g Hn Hnn HG Hd Hp s Hs st u v (proj1 Hinv))
    as Ee.
  rewrite Ee in *.
  destruct Hinv as (_ & _ & _ & _ & _ & _ & _ & Hch).
  destruct (Hch u Hu (proj2 (proj2 Su))) as (lu & Glu).
  apply (candidate_bound g Hn Hnn HG Hd Hp s Hs Hc Ho st u v lu Glu).
  split; [exact Hu|]. split; [exact Hv|exact Hedge].
Qed.



(** The path 0, 1, 2 of [detour_globals] costs 4000000000. *)
Lemma detour_overflow : ~ no_overflow detour_globals 0.
Proof.
  intros H. specialize (H [0; 1; 2] eq_refl).
  assert (P : is_path detour_globals [0; 1; 2]).
  { unfold is_path, has_edge, vertex, edge_cost, at_. simpl.
    repeat split; try lia; discriminate. }
  assert (N : NoDup (removelast [0; 1; 2])).
  { simpl. constructor; [intros [E|[]]; discriminate|].
    constructor; [intros []|constructor]. }
  specialize (H P N). vm_compute in H. apply H. reflexivity.
Qed.

(** On such runs the source keeps its entries. *)
Lemma source_entry_kept g s :
  valid_state g -> nonneg_costs g -> no_wrap_run g s -> vertex g s ->
  forall fuel g',
    dijkstra fuel s g = Done tt g' ->
    at_ (dist g') s = 0 /\ at_ (previous_node g') s = -1.
Proof.
  intros V Hc Ho Hs fuel g' Hrun.
  destruct (valid_state_parts g V) as (Hn & Hnn & HG & Hd & Hp).
  destruct (inv_paths_final_run g Hn Hnn HG Hd Hp s Hs Hc Ho fuel g' Hrun)
    as (m & _ & _ & H0 & H1 & _).
  now split.
Qed.

(** * The claims *)




(** C2: for every valid graph (non-negative costs are not needed for
    this) and valid source [s], [dijkstra] returns, and afterwards every
    vertex [v] that no path of real edges joins to [s] has [dist[v]]
    equal to the sentinel [INT_MAX] and [previous_node[v]] equal to -1. *)
Theorem C2_unreachable_untouched g s :
  valid_state g -> nonneg_costs g -> vertex g s ->
  (exists fuel g', dijkstra fuel s g = Done tt g') /\
  (forall fuel g',
      dijkstra fuel s g = Done tt g' ->
      forall v, vertex g v -> ~ reachable g s v ->
                at_ (dist g') v = INT_MAX /\
                at_ (previous_node g') v = -1).
Proof.
  intros V _ Hs. split; [now apply dijkstra_total|].
  destruct (valid_state_parts g V) as (Hn & Hnn & HG & Hd & Hp).
  intros fuel g' Hrun v Hv Hnr.
  destruct (inv_reach_final g Hn Hnn HG Hd Hp s Hs fuel g' Hrun)
    as (_ & _ & Ht).
  specialize (Ht v Hv). simpl in Ht.
  destruct (Z.eq_dec (at_ (dist g') v) INT_MAX) as [E1|N1];
    [|exfalso; apply Hnr, Ht; now left].
  destruct (Z.eq_dec (at_ (previous_node g') v) (-1)) as [E2|N2];
    [|exfalso; apply Hnr, Ht; now right].
  now split.
Qed.

Lemma C2_unreachable_untouched_witness :
  valid_state scenario_A_globals /\ nonneg_costs scenario_A_globals /\
  vertex scenario_A_globals 2 /\
  ((exists fuel g', dijkstra fuel 2 scenario_A_globals = Done tt g') /\
   (forall fuel g',
       dijkstra fuel 2 scenario_A_globals = Done tt g' ->
       forall v, vertex scenario_A_globals v ->
                 ~ reachable scenario_A_globals 2 v ->
                 at_ (dist g') v = INT_MAX /\
                 at_ (previous_node g') v = -1)).
Proof.
  split; [exact scenario_A_valid|].
  split; [reflexivity|].
  split; [apply scenario_A_vertex; lia|].
  apply (C2_unreachable_untouched scenario_A_globals 2).
  - exact scenario_A_valid.
  - reflexivity.
  - apply scenario_A_vertex; lia.
Defined.

(** C3: the file of two nodes with costs 2147483646 on 0->1 and 2 on
    1->0 (both non-negative), source 0.  The sum formed for the edge back
    to the source, 2147483646 + 2, wraps to -2147483648, which is below
    [dist[0] = 0]: line 185 overwrites the distance of the source and
    line 190 its predecessor.  [dijkstra] ends with [dist[0] =
    -2147483648] and [previous_node[0] = 1], where the comments of the
    source (lines 47-48, 128-131, 139-141) say that the source costs
    nothing to reach and is the node that keeps -1. *)
Theorem C3_source_overwritten :
  valid_state wrap_globals /\ nonneg_costs wrap_globals /\
  vertex wrap_globals 0 /\
  tables (dijkstra 10 0 wrap_globals)
  = Some ([-2147483648; -2], [1; 0]) /\
  (forall v0,
      tables (main 10 2 (file [-1; 2147483646; 2; -1]) v0 0 startup)
      = Some ([-2147483648; -2], [1; 0])) /\
  exists g',
    dijkstra 10 0 wrap_globals = Done tt g' /\
    ~ (at_ (dist g') 0 = 0 /\ at_ (previous_node g') 0 = -1).
Proof.
  split; [unfold valid_state, INT_MAX; simpl; repeat split; try lia; reflexivity|].
  split; [reflexivity|].
  split; [unfold vertex; simpl; lia|].
  split; [vm_compute; reflexivity|].
  split; [intros v0; vm_compute; reflexivity|].
  eexists. split; [vm_compute; reflexivity|].
  vm_compute. intros [H _]. discriminate.
Qed.

(** C4: for every graph with non-negative edge costs and valid source,
    [dijkstra] returns, and then every real edge [(u, v)] with cost [c]
    satisfies [dist[v] <= dist[u] + c] (the sum taken exactly). *)
Theorem C4_relaxation g s :
  valid_state g -> nonneg_costs g -> vertex g s ->
  (exists fuel g', dijkstra fuel s g = Done tt g') /\
  (forall fuel g',
      dijkstra fuel s g = Done tt g' ->
      forall u v, has_edge g u v ->
                  at_ (dist g') v <= at_ (dist g') u + edge_cost g u v).
Proof.
  intros V Hc Hs. split; [now apply dijkstra_total|].
  destruct (valid_state_parts g V) as (Hn & Hnn & HG & Hd & Hp).
  intros fuel g' Hrun u v He.
  exact (relaxation_final g Hn Hnn HG Hd Hp s Hs fuel g' u v Hc Hrun He).
Qed.

Lemma C4_relaxation_witness :
  valid_state scenario_A_globals /\ nonneg_costs scenario_A_globals /\
  vertex scenario_A_globals 0 /\
  ((exists fuel g', dijkstra fuel 0 scenario_A_globals = Done tt g') /\
   (forall fuel g',
       dijkstra fuel 0 scenario_A_globals = Done tt g' ->
       forall u v, has_edge scenario_A_globals u v ->
                   at_ (dist g') v
                   <= at_ (dist g') u + edge_cost scenario_A_globals u v)).
Proof.
  split; [exact scenario_A_valid|].
  split; [reflexivity|].
  split; [apply scenario_A_vertex; lia|].
  apply (C4_relaxation scenario_A_globals 0).
  - exact scenario_A_valid.
  - reflexivity.
  - apply scenario_A_vertex; lia.
Defined.

(** C5, as stated, fails: called with [s = number_of_nodes = 2],
    [dijkstra] raises no error; it overwrites both tables and then
    indexes [dist] outside its bounds. *)
Lemma C5_counterexample :
  valid_state stale_globals /\ ~ vertex stale_globals 2 /\
  exists g1,
    dijkstra 10 2 stale_globals = Undefined g1 /\
    dist g1 <> dist stale_globals /\
    previous_node g1 <> previous_node stale_globals.
Proof.
  split; [unfold valid_state, INT_MAX; simpl; repeat split; try lia; reflexivity|].
  split; [unfold vertex; simpl; lia|].
  eexists. split; [vm_compute; reflexivity|].
  split; vm_compute; discriminate.
Qed.

(** C5 (amended): [dijkstra] does not check its source and there is no
    [InvalidSource] failure.  For [s] outside [[0, number_of_nodes)] it
    first resets both tables ([dist] to [INT_MAX], [previous_node] to -1)
    and then writes [dist[s]] outside the vector, which has no defined
    behaviour.  [main] never makes that call: it replaces such a source
    by 0, and [dijkstra] then returns. *)
Theorem C5_source_not_checked g s :
  valid_state g -> ~ vertex g s ->
  (forall fuel, dijkstra fuel s g = Undefined (reset g)) /\
  choose_source (number_of_nodes g) s = 0 /\
  (exists fuel g',
      dijkstra fuel (choose_source (number_of_nodes g) s) g = Done tt g').
Proof.
  intros V Hs. destruct (valid_state_parts g V) as (Hn & Hnn & HG & Hd & Hp).
  assert (E : choose_source (number_of_nodes g) s = 0).
  { unfold choose_source, vertex in *.
    destruct (s <? 0) eqn:E1; [reflexivity|].
    destruct (s >=? number_of_nodes g) eqn:E2; [reflexivity|]. lia. }
  split; [|split; [exact E|]].
  - intros fuel. unfold dijkstra, bind.
    now rewrite (entry_out g s Hd Hp Hs).
  - rewrite E. apply dijkstra_total; [assumption|]. unfold vertex. lia.
Qed.

Lemma C5_source_not_checked_witness :
  valid_state stale_globals /\ ~ vertex stale_globals 2 /\
  ((forall fuel, dijkstra fuel 2 stale_globals = Undefined (reset stale_globals)) /\
   choose_source (number_of_nodes stale_globals) 2 = 0 /\
   (exists fuel g',
       dijkstra fuel (choose_source (number_of_nodes stale_globals) 2)
         stale_globals = Done tt g')).
Proof.
  assert (V : valid_state stale_globals).
  { unfold valid_state, INT_MAX; simpl; repeat split; try lia; reflexivity. }
  assert (N : ~ vertex stale_globals 2) by (unfold vertex; simpl; lia).
  split; [exact V|]. split; [exact N|].
  exact (C5_source_not_checked stale_globals 2 V N).
Defined.

(** C6, as stated, fails: after the three [resize] calls for two nodes
    the entries are 0, not -1, and after loading the file that holds the
    single integer 5 and a newline the matrix is 5, 5, 0, 0 (here with
    9 in the variable [v] at first; its content plays no part): the
    second entry is a copy of the 5 (the read that met the end of the
    file stored nothing), the two entries never written are 0. *)
Lemma C6_counterexample :
  exists g1 st' v' g2,
    create (with_n startup 2) = Done tt g1 /\
    at_ (graph g1) 0 <> -1 /\
    load_loop 4 0 (file [5]) 9 g1 = Done (st', v') g2 /\
    graph g2 = [5; 5; 0; 0] /\
    at_ (graph g2) 3 <> -1.
Proof.
  do 4 eexists. split; [vm_compute; reflexivity|].
  split; [vm_compute; discriminate|].
  split; [vm_compute; reflexivity|].
  split; [reflexivity|]. vm_compute. discriminate.
Qed.

(** C6 (amended): after the [resize] calls of [main] on the initially
    empty vectors, every one of the [n * n] entries of [graph] is 0 (a
    real edge of cost 0 for [dijkstra], not the -1 that means no edge).
    After the loading loop the matrix is [loaded_matrix]: the entries the
    loop wrote, then 0 in every entry it did not write.  For a file of
    integers within [int], entry [i] holds the [i]-th integer of the file
    where the file has one; when the file ends early and white space
    follows its last integer, the next entry holds a copy of the last
    integer read (the initial content of the variable when the file has
    none); every entry after that holds 0. *)
Theorem C6_entries_after_load n st v0 :
  0 < n < max_nodes -> stream_ok st ->
  exists g1 st' v' g2,
    create (with_n startup n) = Done tt g1 /\
    graph g1 = repeat 0 (Z.to_nat (n * n)) /\
    load_loop (Z.to_nat (mul32 n n)) 0 st v0 g1 = Done (st', v') g2 /\
    graph g2 = loaded_matrix (Z.to_nat (n * n)) st v0 /\
    (all_int (tokens st) = true ->
     graph g2
     = firstn (Z.to_nat (n * n)) (tokens st)
         ++ stale_write (Z.to_nat (n * n)) st v0
         ++ repeat 0 (Z.to_nat (n * n) - length (tokens st)
                      - length (stale_write (Z.to_nat (n * n)) st v0))).
Proof.
  intros Hn Hok. rewrite (create_startup n Hn).
  unfold max_nodes in Hn.
  assert (Em : mul32 n n = n * n).
  { unfold mul32. apply wrap32_small.
    unfold int_range, INT_MIN, INT_MAX; nia. }
  rewrite Em.
  set (g1 := mkGlobals n _ _ _).
  destruct (load_loop_spec (Z.to_nat (n * n)) 0 st v0 g1 [])
    as (st' & v' & E); [reflexivity|reflexivity|assumption|].
  exists g1, st', v'. eexists.
  split; [reflexivity|]. split; [reflexivity|].
  split; [exact E|]. split; [reflexivity|].
  intros Hall. simpl. now apply loaded_matrix_int.
Qed.

Lemma C6_entries_after_load_witness :
  0 < 2 < max_nodes /\ stream_ok (file [5]) /\
  exists g1 st' v' g2,
    create (with_n startup 2) = Done tt g1 /\
    graph g1 = repeat 0 (Z.to_nat (2 * 2)) /\
    load_loop (Z.to_nat (mul32 2 2)) 0 (file [5]) 9 g1 = Done (st', v') g2 /\
    graph g2 = loaded_matrix (Z.to_nat (2 * 2)) (file [5]) 9 /\
    (all_int (tokens (file [5])) = true ->
     graph g2
     = firstn (Z.to_nat (2 * 2)) (tokens (file [5]))
         ++ stale_write (Z.to_nat (2 * 2)) (file [5]) 9
         ++ repeat 0 (Z.to_nat (2 * 2) - length (tokens (file [5]))
                      - length (stale_write (Z.to_nat (2 * 2))
                                  (file [5]) 9))).
Proof.
  assert (H1 : 0 < 2 < max_nodes) by (unfold max_nodes; lia).
  assert (H2 : stream_ok (file [5])) by (split; reflexivity).
  split; [exact H1|]. split; [exact H2|].
  exact (C6_entries_after_load 2 (file [5]) 9 H1 H2).
Defined.

(** C7, as stated, fails: with two nodes, [GraphGet(0, 2)] returns the
    entry of row 1, column 0, and [GraphSet(0, 2, 99)] overwrites it;
    neither raises an error although [v = 2] is outside [[0, 2)]. *)
Lemma C7_counterexample :
  ~ vertex matrix_globals 2 /\
  GraphGet 0 2 matrix_globals = Done 12 matrix_globals /\
  GraphSet 0 2 99 matrix_globals
  = Done tt (with_graph matrix_globals [10; 11; 99; 13]).
Proof.
  split; [unfold vertex; simpl; lia|]. split; reflexivity.
Qed.

(** C7 (amended): the graph accessors check neither [u] nor [v] and there
    is no [IndexOutOfRange] failure.  Whenever the flat index
    [number_of_nodes * u + v], computed in [int], lies inside the vector
    (also for [u] or [v] outside [[0, number_of_nodes)]), [GraphGet]
    returns the entry stored there and [GraphSet] overwrites it; the
    two-argument [GraphSet] overwrites slot [i] for every [i] inside the
    vector. *)
Theorem C7_flat_access g u v c :
  0 <= flat_index (number_of_nodes g) u v < Z.of_nat (length (graph g)) ->
  let i := flat_index (number_of_nodes g) u v in
  GraphGet u v g = Done (at_ (graph g) i) g /\
  GraphSet u v c g
  = Done tt (with_graph g (upd (Z.to_nat i) c (graph g))) /\
  GraphSet_i i c g
  = Done tt (with_graph g (upd (Z.to_nat i) c (graph g))).
Proof.
  intros B i. fold i in B.
  unfold GraphGet, GraphSet, GraphSet_i, bind, get_n, read_graph,
    write_graph, lift_read, lift_write.
  fold i. now rewrite vget_in, vset_in by exact B.
Qed.

Lemma C7_flat_access_witness :
  0 <= flat_index (number_of_nodes matrix_globals) 0 2
    < Z.of_nat (length (graph matrix_globals)) /\
  GraphGet 0 2 matrix_globals = Done 12 matrix_globals /\
  GraphSet 0 2 99 matrix_globals
  = Done tt (with_graph matrix_globals [10; 11; 99; 13]) /\
  GraphSet_i 2 99 matrix_globals
  = Done tt (with_graph matrix_globals [10; 11; 99; 13]).
Proof.
  assert (B : 0 <= flat_index (number_of_nodes matrix_globals) 0 2
              < Z.of_nat (length (graph matrix_globals)))
    by (vm_compute; split; [discriminate|reflexivity]).
  split; [exact B|].
  exact (C7_flat_access matrix_globals 0 2 99 B).
Defined.

(** C8: at every pass of the [while] loop the vertex taken out of the set
    has the least [dist] of the set, and among members of equal [dist]
    the least index; and two runs on the same graph and source end with
    the same [dist] and [previous_node] tables, whatever the tables held
    before and whatever fuel was enough. *)
Theorem C8_tie_break_determinism g s :
  valid_state g -> vertex g s ->
  (forall q0 g1 u q gq y,
      dijkstra_entry s g = Done q0 g1 ->
      loop_state q0 g1 (u :: q) gq ->
      In y q ->
      at_ (dist gq) u <= at_ (dist gq) y /\
      (at_ (dist gq) u = at_ (dist gq) y -> u < y)) /\
  (forall g2 fuel1 fuel2 r1 r2,
      number_of_nodes g2 = number_of_nodes g ->
      graph g2 = graph g ->
      Z.of_nat (length (dist g2)) = number_of_nodes g ->
      Z.of_nat (length (previous_node g2)) = number_of_nodes g ->
      dijkstra fuel1 s g = Done tt r1 ->
      dijkstra fuel2 s g2 = Done tt r2 ->
      dist r1 = dist r2 /\ previous_node r1 = previous_node r2).
Proof.
  intros V Hs.
  destruct (valid_state_parts g V) as (Hn & Hnn & HG & Hd & Hp).
  split.
  - intros q0 g1 u q gq y He Hl Hy.
    pose proof (loop_state_wf g s q0 g1 (u :: q) gq V Hs He Hl)
      as (_ & _ & _ & _ & _ & _ & Hsorted).
    simpl in Hsorted.
    pose proof (sorted_head _ _ _ _ Hsorted Hy) as L.
    apply ltDist_spec in L. lia.
  - intros g2 fuel1 fuel2 r1 r2 En Eg Hd2 Hp2 R1 R2.
    rewrite (dijkstra_eq g Hn Hnn HG Hd Hp s Hs) in R1.
    rewrite <- En in Hd2, Hp2.
    assert (Hs2 : vertex g2 s) by (unfold vertex in *; now rewrite En).
    rewrite (dijkstra_eq g2) in R2;
      try assumption; try (rewrite ?En, ?Eg; assumption).
    assert (E : entry_p s g2 = entry_p s g).
    { unfold entry_p, reset. simpl. now rewrite En, Eg. }
    rewrite E in R2.
    apply while_loop_more with (fuel' := Nat.max fuel1 fuel2) in R1;
      [|lia].
    apply while_loop_more with (fuel' := Nat.max fuel1 fuel2) in R2;
      [|lia].
    rewrite R1 in R2. inversion R2. now split.
Qed.

Lemma C8_tie_break_determinism_witness :
  valid_state scenario_A_globals /\ vertex scenario_A_globals 0 /\
  ((forall q0 g1 u q gq y,
       dijkstra_entry 0 scenario_A_globals = Done q0 g1 ->
       loop_state q0 g1 (u :: q) gq ->
       In y q ->
       at_ (dist gq) u <= at_ (dist gq) y /\
       (at_ (dist gq) u = at_ (dist gq) y -> u < y)) /\
   (forall g2 fuel1 fuel2 r1 r2,
       number_of_nodes g2 = number_of_nodes scenario_A_globals ->
       graph g2 = graph scenario_A_globals ->
       Z.of_nat (length (dist g2)) = number_of_nodes scenario_A_globals ->
       Z.of_nat (length (previous_node g2))
       = number_of_nodes scenario_A_globals ->
       dijkstra fuel1 0 scenario_A_globals = Done tt r1 ->
       dijkstra fuel2 0 g2 = Done tt r2 ->
       dist r1 = dist r2 /\ previous_node r1 = previous_node r2)).
Proof.
  split; [exact scenario_A_valid|].
  split; [apply scenario_A_vertex; lia|].
  apply (C8_tie_break_determinism scenario_A_globals 0).
  - exact scenario_A_valid.
  - apply scenario_A_vertex; lia.
Defined.

(** C9: for every graph with non-negative edge costs and valid source,
    [dijkstra] terminates: some amount of fuel lets the [while] loop see
    its set empty and return, and so does every larger amount, with the
    same globals. *)
Theorem C9_termination g s :
  valid_state g -> nonneg_costs g -> vertex g s ->
  exists fuel g',
    dijkstra fuel s g = Done tt g' /\
    forall fuel', (fuel <= fuel')%nat -> dijkstra fuel' s g = Done tt g'.
Proof.
  intros V _ Hs.
  destruct (valid_state_parts g V) as (Hn & Hnn & HG & Hd & Hp).
  destruct (dijkstra_total g s V Hs) as (fuel & g' & E).
  exists fuel, g'. split; [assumption|].
  intros fuel' Hle.
  rewrite (dijkstra_eq g Hn Hnn HG Hd Hp s Hs) in *.
  now apply while_loop_more with fuel.
Qed.

Lemma C9_termination_witness :
  valid_state scenario_A_globals /\ nonneg_costs scenario_A_globals /\
  vertex scenario_A_globals 0 /\
  exists fuel g',
    dijkstra fuel 0 scenario_A_globals = Done tt g' /\
    forall fuel', (fuel <= fuel')%nat ->
                  dijkstra fuel' 0 scenario_A_globals = Done tt g'.
Proof.
  split; [exact scenario_A_valid|].
  split; [reflexivity|].
  split; [apply scenario_A_vertex; lia|].
  apply (C9_termination scenario_A_globals 0).
  - exact scenario_A_valid.
  - reflexivity.
  - apply scenario_A_vertex; lia.
Defined.

(** C10: [newDist] is the sum [dist[u] + GraphGet(u, v)] reduced modulo
    2^32 into the range of [int], and [relax] leaves in [dist[v]] the
    smaller of it and the old value; the sentinel written by the
    initialisation is [INT_MAX], the largest [int].  For a non-negative
    cost the stored candidate is exact and below the sentinel exactly
    when the sum is below [INT_MAX]; a sum equal to [INT_MAX] is never
    recorded as an improvement; a larger sum wraps to the sum minus 2^32,
    a negative number, instead of staying at [INT_MAX].  In the run on
    [overflow_globals] the path 0, 1, 2 of cost 2^31 is recorded as
    -2^31. *)
Theorem C10_candidate_wraps g q u v :
  valid_state g -> all_int (dist g) = true ->
  has_edge g u v -> 0 <= edge_cost g u v ->
  let sum := at_ (dist g) u + edge_cost g u v in
  (exists q' g',
      relax u v q g = Done q' g' /\
      at_ (dist g') v = Z.min (candidate g u v) (at_ (dist g) v)) /\
  (dist (reset g) = repeat INT_MAX (Z.to_nat (number_of_nodes g)) /\
   forall z, int_range z -> z <= INT_MAX) /\
  int_range (candidate g u v) /\
  (candidate g u v - sum) mod 4294967296 = 0 /\
  (candidate g u v = sum /\ candidate g u v < INT_MAX <-> sum < INT_MAX) /\
  (sum = INT_MAX ->
   Z.min (candidate g u v) (at_ (dist g) v) = at_ (dist g) v) /\
  (INT_MAX < sum ->
   candidate g u v = sum - 4294967296 /\ candidate g u v < 0) /\
  tables (dijkstra 10 0 overflow_globals)
  = Some ([0; 2147483646; -2147483648], [-1; 0; 1]).
Proof.
  intros V Hdi He Hc sum.
  destruct V as (Hn & Hnn & HG & Hgi & Hd & Hp).
  pose proof He as (Hu & Hv & Hne). unfold vertex in Hu, Hv.
  apply all_int_spec in Hdi, Hgi. rewrite Forall_forall in Hdi, Hgi.
  assert (Ru : int_range (at_ (dist g) u)) by (apply Hdi, at_In; lia).
  assert (Rv : int_range (at_ (dist g) v)) by (apply Hdi, at_In; lia).
  assert (Rc : int_range (edge_cost g u v)).
  { destruct (flat_index_eq g Hn Hnn HG u v Hu Hv) as [_ B].
    apply Hgi. unfold edge_cost. apply at_In. lia. }
  unfold int_range, INT_MIN, INT_MAX in Ru, Rv, Rc.
  assert (Small : sum <= 2147483647 -> candidate g u v = sum).
  { intros H. unfold candidate, add32. apply wrap32_small.
    unfold int_range, INT_MIN, INT_MAX. subst sum. lia. }
  assert (Over : 2147483647 < sum -> candidate g u v = sum - 4294967296).
  { intros H. unfold candidate, add32. apply wrap32_over.
    unfold INT_MAX. subst sum. lia. }
  split.
  { rewrite (relax_eq_shape g Hn Hnn HG u v q g eq_refl eq_refl Hd Hp Hu Hv).
    do 2 eexists. split; [reflexivity|].
    unfold relax_p, candidate.
    replace (edge_cost g u v =? -1) with false by lia.
    destruct (Z.ltb_spec (add32 (at_ (dist g) u) (edge_cost g u v))
                (at_ (dist g) v)) as [L|L]; simpl.
    - rewrite at_upd_same by lia. lia.
    - lia. }
  split; [split; [reflexivity|intros z Hz; apply Hz]|].
  split; [apply wrap32_range|].
  split; [apply wrap32_congr|].
  unfold INT_MAX in *.
  split; [|split; [|split]].
  - split; [lia|]. intros H. split; [apply Small|rewrite Small]; lia.
  - intros H. rewrite Small by lia. lia.
  - intros H. rewrite Over by assumption. subst sum. lia.
  - vm_compute. reflexivity.
Qed.

Lemma C10_candidate_wraps_witness :
  valid_state overflow_midrun /\ all_int (dist overflow_midrun) = true /\
  has_edge overflow_midrun 1 2 /\ 0 <= edge_cost overflow_midrun 1 2 /\
  candidate overflow_midrun 1 2 = 2147483648 - 4294967296.
Proof.
  assert (V : valid_state overflow_midrun).
  { unfold valid_state, INT_MAX; simpl; repeat split; try lia; reflexivity. }
  assert (I : all_int (dist overflow_midrun) = true) by reflexivity.
  assert (E : has_edge overflow_midrun 1 2).
  { unfold has_edge, vertex. simpl. repeat split; try lia.
    vm_compute. discriminate. }
  assert (C : 0 <= edge_cost overflow_midrun 1 2)
    by (vm_compute; discriminate).
  split; [exact V|]. split; [exact I|]. split; [exact E|].
  split; [exact C|].
  destruct (C10_candidate_wraps overflow_midrun [] 1 2 V I E C)
    as (_ & _ & _ & _ & _ & _ & H & _).
  apply H. vm_compute. reflexivity.
Defined.

(** * Further properties of [dijkstra] *)

Lemma last_default (t : list Z) b d d' : last (b :: t) d = last (b :: t) d'.
Proof.
  revert b. induction t as [|c t IH]; intros b; [reflexivity|].
  change (last (b :: c :: t) d) with (last (c :: t) d).
  change (last (b :: c :: t) d') with (last (c :: t) d').
  apply IH.
Qed.

Lemma path_lower g (D : Z -> Z) :
  (forall u v, has_edge g u v -> D v <= D u + edge_cost g u v) ->
  forall p a, is_path g (a :: p) ->
              D (last (a :: p) a) <= D a + path_cost g (a :: p).
Proof.
  intros Hrel. induction p as [|b t IH]; intros a Hp.
  - simpl. lia.
  - destruct Hp as [Hab Hp]. specialize (IH b Hp).
    change (last (a :: b :: t) a) with (last (b :: t) a).
    rewrite (last_default t b a b).
    change (path_cost g (a :: b :: t))
      with (edge_cost g a b + path_cost g (b :: t)).
    specialize (Hrel a b Hab). lia.
Qed.

(** X7: [dijkstra] returns, and it leaves [number_of_nodes] and
    [graph] as they were, both tables at one slot per node, and only
    [int]s in [dist]. *)
Theorem dijkstra_keeps_graph g s :
  valid_state g -> vertex g s ->
  (exists fuel g', dijkstra fuel s g = Done tt g') /\
  (forall fuel g',
      dijkstra fuel s g = Done tt g' ->
      number_of_nodes g' = number_of_nodes g /\
      graph g' = graph g /\
      Z.of_nat (length (dist g')) = number_of_nodes g /\
      Z.of_nat (length (previous_node g')) = number_of_nodes g /\
      all_int (dist g') = true).
Proof.
  intros V Hs. split; [now apply dijkstra_total|].
  destruct (valid_state_parts g V) as (Hn & Hnn & HG & Hd & Hp).
  intros fuel g' Hrun.
  destruct (dist_le_entry g Hn Hnn HG Hd Hp s Hs fuel g' Hrun)
    as [(E1 & E2 & E3 & E4 & E5 & _) _].
  simpl in *. repeat split; try assumption. now apply all_int_spec.
Qed.

Lemma dijkstra_keeps_graph_witness :
  valid_state scenario_A_globals /\ vertex scenario_A_globals 0 /\
  exists g',
    dijkstra 10 0 scenario_A_globals = Done tt g' /\
    graph g' = graph scenario_A_globals.
Proof.
  split; [exact scenario_A_valid|].
  split; [apply scenario_A_vertex; lia|].
  eexists. split; [vm_compute; reflexivity|].
  apply (proj2 (dijkstra_keeps_graph scenario_A_globals 0 scenario_A_valid
                  (scenario_A_vertex 0 ltac:(lia))) 10%nat).
  vm_compute. reflexivity.
Defined.

(** X8: in every pass of the [while] loop no entry of [dist]
    grows. *)
Theorem dist_never_grows g s :
  valid_state g -> vertex g s ->
  forall q0 g1 u q gq,
    dijkstra_entry s g = Done q0 g1 ->
    loop_state q0 g1 (u :: q) gq ->
    exists q' g',
      iteration u q gq = Done q' g' /\
      forall w, vertex g w -> at_ (dist g') w <= at_ (dist gq) w.
Proof.
  intros V Hs q0 g1 u q gq He Hl.
  destruct (valid_state_parts g V) as (Hn & Hnn & HG & Hd & Hp).
  pose proof (loop_state_wf g s q0 g1 (u :: q) gq V Hs He Hl) as W.
  destruct (wf_head g Hn Hnn HG u q gq W) as [Hu W0].
  pose proof (iteration_eq g Hn Hnn HG u (q, gq) W0 Hu) as Eit.
  simpl in Eit. do 2 eexists. split; [exact Eit|].
  intros w Hw.
  apply (iteration_dist_le g Hn Hnn HG Hd Hp s Hs u (q, gq) w W0 Hu).
  unfold vertex in Hw. lia.
Qed.

Lemma dist_never_grows_witness :
  valid_state scenario_A_globals /\ vertex scenario_A_globals 0 /\
  forall q0 g1 u q gq,
    dijkstra_entry 0 scenario_A_globals = Done q0 g1 ->
    loop_state q0 g1 (u :: q) gq ->
    exists q' g',
      iteration u q gq = Done q' g' /\
      forall w, vertex scenario_A_globals w ->
                at_ (dist g') w <= at_ (dist gq) w.
Proof.
  split; [exact scenario_A_valid|].
  split; [apply scenario_A_vertex; lia|].
  apply (dist_never_grows scenario_A_globals 0).
  - exact scenario_A_valid.
  - apply scenario_A_vertex; lia.
Defined.

(** X9: after [dijkstra], on any valid graph (its
    costs may be negative, its sums may wrap), every entry of
    [previous_node] is -1 or a vertex [u] with a real edge from [u] to the
    entry's vertex, whose [dist] is then below the sentinel. *)
Theorem previous_node_is_edge g s :
  valid_state g -> vertex g s ->
  (exists fuel g', dijkstra fuel s g = Done tt g') /\
  forall fuel g',
    dijkstra fuel s g = Done tt g' ->
    forall v, vertex g v ->
              at_ (previous_node g') v = -1 \/
              (has_edge g (at_ (previous_node g') v) v /\
               at_ (dist g') v < INT_MAX).
Proof.
  intros V Hs. split; [now apply dijkstra_total|].
  intros fuel g' Hrun v Hv.
  destruct (valid_state_parts g V) as (Hn & Hnn & HG & Hd & Hp).
  destruct (inv_pred_final g Hn Hnn HG Hd Hp s Hs fuel g' Hrun) as [_ H].
  exact (H v Hv).
Qed.

Lemma previous_node_is_edge_witness :
  valid_state overflow_globals /\ vertex overflow_globals 0 /\
  (exists fuel g', dijkstra fuel 0 overflow_globals = Done tt g') /\
  forall fuel g',
    dijkstra fuel 0 overflow_globals = Done tt g' ->
    forall v, vertex overflow_globals v ->
              at_ (previous_node g') v = -1 \/
              (has_edge overflow_globals (at_ (previous_node g') v) v /\
               at_ (dist g') v < INT_MAX).
Proof.
  assert (V : valid_state overflow_globals).
  { unfold valid_state, INT_MAX; simpl; repeat split; try lia; reflexivity. }
  assert (S0 : vertex overflow_globals 0) by (unfold vertex; simpl; lia).
  split; [exact V|]. split; [exact S0|].
  exact (previous_node_is_edge overflow_globals 0 V S0).
Defined.

Lemma dist_lower_bound g s fuel g' p v :
  valid_state g -> nonneg_costs g -> vertex g s ->
  dijkstra fuel s g = Done tt g' ->
  hd_error p = Some s -> is_path g p -> last p s = v ->
  at_ (dist g') v <= path_cost g p.
Proof.
  intros V Hc Hs Hrun Hhd Hp Hlast.
  destruct (valid_state_parts g V) as (Hn & Hnn & HG & Hd & Hp0).
  destruct p as [|a t]; [discriminate|]. inversion Hhd; subst a.
  pose proof (path_lower g (at_ (dist g'))
                (fun u v He =>
                   relaxation_final g Hn Hnn HG Hd Hp0 s Hs fuel g' u v
                     Hc Hrun He) t s Hp) as L.
  rewrite Hlast in L.
  destruct (dist_le_entry g Hn Hnn HG Hd Hp0 s Hs fuel g' Hrun) as [_ Hle].
  specialize (Hle s ltac:(unfold vertex in Hs; lia)).
  rewrite entry_dist_s in Hle by assumption. lia.
Qed.

(** X10: for every graph with non-negative costs, also when
    sums wrap, [dist[v]] after [dijkstra] is at most the exact cost of
    every path from [s] to [v]. *)
Theorem dist_below_every_path g s :
  valid_state g -> nonneg_costs g -> vertex g s ->
  (exists fuel g', dijkstra fuel s g = Done tt g') /\
  forall fuel g',
    dijkstra fuel s g = Done tt g' ->
    forall p v, hd_error p = Some s -> is_path g p -> last p s = v ->
                at_ (dist g') v <= path_cost g p.
Proof.
  intros V Hc Hs. split; [now apply dijkstra_total|].
  intros fuel g' Hrun p v Hhd Hp Hlast.
  now apply (dist_lower_bound g s fuel g' p v).
Qed.

Lemma dist_below_every_path_witness :
  valid_state overflow_globals /\ nonneg_costs overflow_globals /\
  vertex overflow_globals 0 /\
  (exists fuel g', dijkstra fuel 0 overflow_globals = Done tt g') /\
  forall fuel g',
    dijkstra fuel 0 overflow_globals = Done tt g' ->
    forall p v, hd_error p = Some 0 -> is_path overflow_globals p ->
                last p 0 = v ->
                at_ (dist g') v <= path_cost overflow_globals p.
Proof.
  assert (V : valid_state overflow_globals).
  { unfold valid_state, INT_MAX; simpl; repeat split; try lia; reflexivity. }
  assert (S0 : vertex overflow_globals 0) by (unfold vertex; simpl; lia).
  assert (N : nonneg_costs overflow_globals) by reflexivity.
  split; [exact V|]. split; [exact N|]. split; [exact S0|].
  exact (dist_below_every_path overflow_globals 0 V N S0).
Defined.

(** X11: for non-negative costs without overflow, every
    [dist[v]] below the sentinel is the cost of a path from [s] to [v]
    that repeats no vertex, and no path from [s] to [v] is cheaper. *)
Theorem dist_is_shortest g s :
  valid_state g -> nonneg_costs g -> no_overflow g s -> vertex g s ->
  (exists fuel g', dijkstra fuel s g = Done tt g') /\
  forall fuel g',
    dijkstra fuel s g = Done tt g' ->
    forall v, vertex g v -> at_ (dist g') v < INT_MAX ->
      (exists p, hd_error p = Some s /\ last p s = v /\ is_path g p /\
                 NoDup p /\ path_cost g p = at_ (dist g') v) /\
      (forall p, hd_error p = Some s -> last p s = v -> is_path g p ->
                 at_ (dist g') v <= path_cost g p).
Proof.
  intros V Hc Ho Hs. split; [now apply dijkstra_total|].
  intros fuel g' Hrun v Hv Hlt.
  destruct (valid_state_parts g V) as (Hn & Hnn & HG & Hd & Hp).
  split.
  - destruct (inv_paths_final g Hn Hnn HG Hd Hp s Hs Hc Ho fuel g' Hrun)
      as (m & _ & _ & _ & _ & _ & _ & _ & Hch).
    destruct (Hch v Hv Hlt) as (l & Hcl & Hnd & _ & Hcost).
    simpl in *. exists (rev l).
    destruct (chain_rev_path _ _ _ _ _ Hs Hcl) as [P1 P2].
    destruct (chain_hd _ _ _ _ _ Hcl) as [t ->].
    split; [assumption|]. split; [simpl; apply last_last|].
    split; [assumption|]. split; [now apply NoDup_rev|].
    now rewrite path_cost_rev.
  - intros p Hhd Hlast Hp'.
    now apply (dist_lower_bound g s fuel g' p v).
Qed.

Lemma dist_is_shortest_witness :
  valid_state scenario_A_globals /\ nonneg_costs scenario_A_globals /\
  no_overflow scenario_A_globals 0 /\ vertex scenario_A_globals 0 /\
  ((exists fuel g', dijkstra fuel 0 scenario_A_globals = Done tt g') /\
   forall fuel g',
     dijkstra fuel 0 scenario_A_globals = Done tt g' ->
     forall v, vertex scenario_A_globals v -> at_ (dist g') v < INT_MAX ->
       (exists p, hd_error p = Some 0 /\ last p 0 = v /\
                  is_path scenario_A_globals p /\ NoDup p /\
                  path_cost scenario_A_globals p = at_ (dist g') v) /\
       (forall p, hd_error p = Some 0 -> last p 0 = v ->
                  is_path scenario_A_globals p ->
                  at_ (dist g') v <= path_cost scenario_A_globals p)).
Proof.
  split; [exact scenario_A_valid|].
  split; [reflexivity|].
  split; [exact scenario_A_no_overflow|].
  split; [apply scenario_A_vertex; lia|].
  apply (dist_is_shortest scenario_A_globals 0).
  - exact scenario_A_valid.
  - reflexivity.
  - exact scenario_A_no_overflow.
  - apply scenario_A_vertex; lia.
Defined.

(** X12: for non-negative costs without overflow, every vertex
    [v <> s] with [dist[v]] below the sentinel has a predecessor
    [u = previous_node[v]] joined to it by a real edge, with
    [dist[v] = dist[u] + cost(u, v)]. *)
Theorem last_hop_exact g s :
  valid_state g -> nonneg_costs g -> no_overflow g s -> vertex g s ->
  (exists fuel g', dijkstra fuel s g = Done tt g') /\
  forall fuel g',
    dijkstra fuel s g = Done tt g' ->
    forall v, vertex g v -> v <> s -> at_ (dist g') v < INT_MAX ->
      has_edge g (at_ (previous_node g') v) v /\
      at_ (dist g') v
      = at_ (dist g') (at_ (previous_node g') v)
        + edge_cost g (at_ (previous_node g') v) v.
Proof.
  intros V Hc Ho Hs. split; [now apply dijkstra_total|].
  intros fuel g' Hrun v Hv Hvs Hlt.
  destruct (valid_state_parts g V) as (Hn & Hnn & HG & Hd & Hp).
  destruct (inv_paths_final g Hn Hnn HG Hd Hp s Hs Hc Ho fuel g' Hrun)
    as (m & _ & _ & _ & _ & _ & _ & _ & Hch).
  destruct (Hch v Hv Hlt) as (l & Hcl & _ & Ht & Hcost). simpl in *.
  inversion Hcl as [|v' u l' _ Hpv He Hcu]; subst; [contradiction|].
  split; [assumption|].
  destruct (chain_hd _ _ _ _ _ Hcu) as [t El]. subst l'.
  set (u := at_ (previous_node g') v) in *.
  assert (Su : settled g ([], g') u) by (apply Ht; now left).
  destruct Su as (Hu & _ & Hult). simpl in Hult.
  destruct (Hch u Hu Hult) as (lu & Hclu & _ & _ & Hcostu). simpl in *.
  pose proof (chain_unique g Hn Hnn HG Hd Hp s Hs Hc Ho _ _ _ Hcu _ Hclu)
    as <-.
  rewrite <- Hcost, <- Hcostu. simpl. lia.
Qed.

Lemma last_hop_exact_witness :
  valid_state scenario_A_globals /\ nonneg_costs scenario_A_globals /\
  no_overflow scenario_A_globals 0 /\ vertex scenario_A_globals 0 /\
  ((exists fuel g', dijkstra fuel 0 scenario_A_globals = Done tt g') /\
   forall fuel g',
     dijkstra fuel 0 scenario_A_globals = Done tt g' ->
     forall v, vertex scenario_A_globals v -> v <> 0 ->
               at_ (dist g') v < INT_MAX ->
       has_edge scenario_A_globals (at_ (previous_node g') v) v /\
       at_ (dist g') v
       = at_ (dist g') (at_ (previous_node g') v)
         + edge_cost scenario_A_globals (at_ (previous_node g') v) v).
Proof.
  split; [exact scenario_A_valid|].
  split; [reflexivity|].
  split; [exact scenario_A_no_overflow|].
  split; [apply scenario_A_vertex; lia|].
  apply (last_hop_exact scenario_A_globals 0).
  - exact scenario_A_valid.
  - reflexivity.
  - exact scenario_A_no_overflow.
  - apply scenario_A_vertex; lia.
Defined.

(** X13: for non-negative costs without
    overflow, [previous_node[v]] is -1 after [dijkstra] exactly for the
    source and for the vertices whose [dist] is still the sentinel; these
    are the rows the report of [main] marks. *)
Theorem previous_node_none_iff g s :
  valid_state g -> nonneg_costs g -> no_overflow g s -> vertex g s ->
  (exists fuel g', dijkstra fuel s g = Done tt g') /\
  forall fuel g',
    dijkstra fuel s g = Done tt g' ->
    forall v, vertex g v ->
      (at_ (previous_node g') v = -1 <->
       v = s \/ at_ (dist g') v = INT_MAX).
Proof.
  intros V Hc Ho Hs. split; [now apply dijkstra_total|].
  intros fuel g' Hrun v Hv.
  destruct (valid_state_parts g V) as (Hn & Hnn & HG & Hd & Hp).
  destruct (inv_paths_final g Hn Hnn HG Hd Hp s Hs Hc Ho fuel g' Hrun)
    as (m & W & _ & _ & Hps & _ & _ & _ & Hch).
  destruct (inv_pred_final g Hn Hnn HG Hd Hp s Hs fuel g' Hrun) as [_ Hpr].
  pose proof (wf_dist_range g Hn Hnn HG Hd Hp s Hs _ v W Hv) as Rv.
  unfold int_range in Rv. simpl in *.
  split.
  - intros E. destruct (Z.eq_dec v s) as [|N]; [now left|right].
    destruct (Z.eq_dec (at_ (dist g') v) INT_MAX) as [|Nd]; [assumption|].
    exfalso.
    destruct (Hch v Hv ltac:(lia)) as (l & Hcl & _).
    inversion Hcl as [|v' u l' _ Hpv He _]; subst; [contradiction|].
    simpl in He. rewrite E in He.
    destruct He as (Hu & _). unfold vertex in Hu. lia.
  - intros [->|E]; [assumption|].
    destruct (Hpr v Hv) as [|[_ L]]; [assumption|lia].
Qed.

Lemma previous_node_none_iff_witness :
  valid_state scenario_A_globals /\ nonneg_costs scenario_A_globals /\
  no_overflow scenario_A_globals 2 /\ vertex scenario_A_globals 2 /\
  ((exists fuel g', dijkstra fuel 2 scenario_A_globals = Done tt g') /\
   forall fuel g',
     dijkstra fuel 2 scenario_A_globals = Done tt g' ->
     forall v, vertex scenario_A_globals v ->
       (at_ (previous_node g') v = -1 <->
        v = 2 \/ at_ (dist g') v = INT_MAX)).
Proof.
  assert (O : no_overflow scenario_A_globals 2).
  { apply small_costs_no_overflow; unfold INT_MAX; simpl; try lia.
    reflexivity. }
  split; [exact scenario_A_valid|].
  split; [reflexivity|].
  split; [exact O|].
  split; [apply scenario_A_vertex; lia|].
  apply (previous_node_none_iff scenario_A_globals 2).
  - exact scenario_A_valid.
  - reflexivity.
  - exact O.
  - apply scenario_A_vertex; lia.
Defined.

(** X14: for non-negative costs without overflow, [dist[v]] is
    still the sentinel after [dijkstra] exactly when no path from [s] to
    [v] costs less than [INT_MAX]; in particular every vertex joined to
    [s] by a cheaper path gets a distance. *)
Theorem dist_sentinel_iff g s :
  valid_state g -> nonneg_costs g -> no_overflow g s -> vertex g s ->
  (exists fuel g', dijkstra fuel s g = Done tt g') /\
  forall fuel g',
    dijkstra fuel s g = Done tt g' ->
    forall v, vertex g v ->
      (at_ (dist g') v = INT_MAX <->
       forall p, hd_error p = Some s -> last p s = v -> is_path g p ->
                 INT_MAX <= path_cost g p).
Proof.
  intros V Hc Ho Hs. split; [now apply dijkstra_total|].
  intros fuel g' Hrun v Hv.
  destruct (valid_state_parts g V) as (Hn & Hnn & HG & Hd & Hp).
  assert (Hlow : forall p v, hd_error p = Some s -> is_path g p ->
                             last p s = v ->
                             at_ (dist g') v <= path_cost g p)
    by (intros p w; now apply (dist_lower_bound g s fuel g' p w)).
  destruct (inv_paths_final g Hn Hnn HG Hd Hp s Hs Hc Ho fuel g' Hrun)
    as (m & W & _ & _ & _ & _ & _ & _ & Hch).
  pose proof (wf_dist_range g Hn Hnn HG Hd Hp s Hs _ v W Hv) as Rv.
  unfold int_range in Rv. simpl in *.
  split.
  - intros E p Hhd Hlast Hp'. rewrite <- E. now apply Hlow.
  - intros Hall.
    destruct (Z.eq_dec (at_ (dist g') v) INT_MAX) as [|N]; [assumption|].
    exfalso.
    destruct (Hch v Hv ltac:(lia)) as (l & Hcl & _ & _ & Hcost).
    simpl in *.
    destruct (chain_rev_path _ _ _ _ _ Hs Hcl) as [P1 P2].
    destruct (chain_hd _ _ _ _ _ Hcl) as [t El]. subst l.
    assert (Elast : last (rev (v :: t)) s = v) by (simpl; apply last_last).
    specialize (Hall (rev (v :: t)) P2 Elast P1).
    rewrite path_cost_rev in Hall. lia.
Qed.

Lemma dist_sentinel_iff_witness :
  valid_state scenario_A_globals /\ nonneg_costs scenario_A_globals /\
  no_overflow scenario_A_globals 0 /\ vertex scenario_A_globals 0 /\
  ((exists fuel g', dijkstra fuel 0 scenario_A_globals = Done tt g') /\
   forall fuel g',
     dijkstra fuel 0 scenario_A_globals = Done tt g' ->
     forall v, vertex scenario_A_globals v ->
       (at_ (dist g') v = INT_MAX <->
        forall p, hd_error p = Some 0 -> last p 0 = v ->
                  is_path scenario_A_globals p ->
                  INT_MAX <= path_cost scenario_A_globals p)).
Proof.
  split; [exact scenario_A_valid|].
  split; [reflexivity|].
  split; [exact scenario_A_no_overflow|].
  split; [apply scenario_A_vertex; lia|].
  apply (dist_sentinel_iff scenario_A_globals 0).
  - exact scenario_A_valid.
  - reflexivity.
  - exact scenario_A_no_overflow.
  - apply scenario_A_vertex; lia.
Defined.

(** X15: for non-negative costs without overflow the [while] loop
    makes at most [number_of_nodes] passes: fuel [number_of_nodes + 1]
    is enough. *)
Theorem at_most_n_passes g s :
  valid_state g -> nonneg_costs g -> no_overflow g s -> vertex g s ->
  exists g', dijkstra (S (Z.to_nat (number_of_nodes g))) s g = Done tt g'.
Proof.
  intros V Hc Ho Hs.
  destruct (valid_state_parts g V) as (Hn & Hnn & HG & Hd & Hp).
  now apply dijkstra_passes.
Qed.

Lemma at_most_n_passes_witness :
  valid_state scenario_A_globals /\ nonneg_costs scenario_A_globals /\
  no_overflow scenario_A_globals 0 /\ vertex scenario_A_globals 0 /\
  exists g',
    dijkstra (S (Z.to_nat (number_of_nodes scenario_A_globals))) 0
      scenario_A_globals = Done tt g'.
Proof.
  split; [exact scenario_A_valid|].
  split; [reflexivity|].
  split; [exact scenario_A_no_overflow|].
  split; [apply scenario_A_vertex; lia|].
  apply (at_most_n_passes scenario_A_globals 0).
  - exact scenario_A_valid.
  - reflexivity.
  - exact scenario_A_no_overflow.
  - apply scenario_A_vertex; lia.
Defined.

(** X16: for non-negative costs without overflow, the
    vertex a pass takes out of the set, and every vertex already out of
    it with a distance, is out of the set after the pass with [dist] and
    [previous_node] unchanged. *)
Theorem settled_is_final g s :
  valid_state g -> nonneg_costs g -> no_overflow g s -> vertex g s ->
  forall q0 g1 u q gq,
    dijkstra_entry s g = Done q0 g1 ->
    loop_state q0 g1 (u :: q) gq ->
    exists q' g',
      iteration u q gq = Done q' g' /\
      forall x, x = u \/ settled g (u :: q, gq) x ->
                ~ In x q' /\
                at_ (dist g') x = at_ (dist gq) x /\
                at_ (previous_node g') x = at_ (previous_node gq) x.
Proof.
  intros V Hc Ho Hs q0 g1 u q gq He Hl.
  destruct (valid_state_parts g V) as (Hn & Hnn & HG & Hd & Hp).
  rewrite (entry_eq g s Hd Hp Hs) in He. inversion He; subst q0 g1.
  destruct (loop_state_inv_paths g Hn Hnn HG Hd Hp s Hs Hc Ho _ _ Hl)
    as [m Hm].
  destruct (wf_head g Hn Hnn HG u q gq (proj1 Hm)) as [Hu W0].
  pose proof (iteration_eq g Hn Hnn HG u (q, gq) W0 Hu) as Eit.
  simpl in Eit. do 2 eexists. split; [exact Eit|].
  intros x Hx.
  destruct (settled_iteration g Hn Hnn HG Hd Hp s Hs Hc Ho m u q gq x Hm Hx)
    as ((_ & Hq' & _) & E1 & E2).
  now split.
Qed.

Lemma settled_is_final_witness :
  valid_state scenario_A_globals /\ nonneg_costs scenario_A_globals /\
  no_overflow scenario_A_globals 0 /\ vertex scenario_A_globals 0 /\
  forall q0 g1 u q gq,
    dijkstra_entry 0 scenario_A_globals = Done q0 g1 ->
    loop_state q0 g1 (u :: q) gq ->
    exists q' g',
      iteration u q gq = Done q' g' /\
      forall x, x = u \/ settled scenario_A_globals (u :: q, gq) x ->
                ~ In x q' /\
                at_ (dist g') x = at_ (dist gq) x /\
                at_ (previous_node g') x = at_ (previous_node gq) x.
Proof.
  split; [exact scenario_A_valid|].
  split; [reflexivity|].
  split; [exact scenario_A_no_overflow|].
  split; [apply scenario_A_vertex; lia|].
  apply (settled_is_final scenario_A_globals 0).
  - exact scenario_A_valid.
  - reflexivity.
  - exact scenario_A_no_overflow.
  - apply scenario_A_vertex; lia.
Defined.

(** * Further properties of the graph store, the comparator and [main] *)

(** X1: on an [n * n] matrix, [GraphSet(u, v, c)] for
    vertices [u], [v] changes nothing but the matrix; [GraphGet(u, v)]
    then returns [c], and [GraphGet] of every other pair of vertices
    returns what it returned before. *)
Theorem GraphSet_then_GraphGet g u v c u' v' :
  0 < number_of_nodes g ->
  number_of_nodes g * number_of_nodes g <= INT_MAX ->
  Z.of_nat (length (graph g)) = number_of_nodes g * number_of_nodes g ->
  vertex g u -> vertex g v -> vertex g u' -> vertex g v' ->
  exists g1,
    GraphSet u v c g = Done tt g1 /\
    number_of_nodes g1 = number_of_nodes g /\
    dist g1 = dist g /\ previous_node g1 = previous_node g /\
    GraphGet u v g1 = Done c g1 /\
    ((u', v') <> (u, v) ->
     GraphGet u' v' g = Done (edge_cost g u' v') g /\
     GraphGet u' v' g1 = Done (edge_cost g u' v') g1).
Proof.
  intros Hn Hnn HG Hu Hv Hu' Hv'.
  destruct (flat_index_eq g Hn Hnn HG u v Hu Hv) as [E B].
  destruct (flat_index_eq g Hn Hnn HG u' v' Hu' Hv') as [E' B'].
  set (g1 := with_graph g (upd (Z.to_nat (number_of_nodes g * u + v)) c
                             (graph g))).
  assert (HG1 : Z.of_nat (length (graph g1))
                = number_of_nodes g1 * number_of_nodes g1)
    by (simpl; now rewrite upd_length).
  exists g1. split.
  { unfold GraphSet, bind, get_n, write_graph, lift_write.
    rewrite E, vset_in by lia. reflexivity. }
  split; [reflexivity|]. split; [reflexivity|]. split; [reflexivity|].
  split.
  { rewrite (GraphGet_eq g1 Hn Hnn HG1 g1 u v eq_refl eq_refl Hu Hv).
    unfold edge_cost. simpl. now rewrite at_upd_same by lia. }
  intros Hne. split.
  { apply (GraphGet_eq g Hn Hnn HG g u' v' eq_refl eq_refl Hu' Hv'). }
  rewrite (GraphGet_eq g1 Hn Hnn HG1 g1 u' v' eq_refl eq_refl Hu' Hv').
  unfold edge_cost. simpl. rewrite at_upd_other; [reflexivity|lia|lia|].
  intros Eq. apply Hne. unfold vertex in *.
  assert (u' = u) by nia. subst u'. f_equal. lia.
Qed.

Lemma GraphSet_then_GraphGet_witness :
  0 < number_of_nodes matrix_globals /\
  number_of_nodes matrix_globals * number_of_nodes matrix_globals
  <= INT_MAX /\
  Z.of_nat (length (graph matrix_globals))
  = number_of_nodes matrix_globals * number_of_nodes matrix_globals /\
  vertex matrix_globals 0 /\ vertex matrix_globals 1 /\
  exists g1,
    GraphSet 0 1 99 matrix_globals = Done tt g1 /\
    number_of_nodes g1 = number_of_nodes matrix_globals /\
    dist g1 = dist matrix_globals /\
    previous_node g1 = previous_node matrix_globals /\
    GraphGet 0 1 g1 = Done 99 g1 /\
    ((1, 0) <> (0, 1) ->
     GraphGet 1 0 matrix_globals
     = Done (edge_cost matrix_globals 1 0) matrix_globals /\
     GraphGet 1 0 g1 = Done (edge_cost matrix_globals 1 0) g1).
Proof.
  assert (H1 : 0 < number_of_nodes matrix_globals) by (simpl; lia).
  assert (H2 : number_of_nodes matrix_globals
               * number_of_nodes matrix_globals <= INT_MAX)
    by (unfold INT_MAX; simpl; lia).
  assert (H3 : Z.of_nat (length (graph matrix_globals))
               = number_of_nodes matrix_globals
                 * number_of_nodes matrix_globals) by reflexivity.
  assert (V0 : vertex matrix_globals 0) by (unfold vertex; simpl; lia).
  assert (V1 : vertex matrix_globals 1) by (unfold vertex; simpl; lia).
  split; [exact H1|]. split; [exact H2|]. split; [exact H3|].
  split; [exact V0|]. split; [exact V1|].
  exact (GraphSet_then_GraphGet matrix_globals 0 1 99 1 0
           H1 H2 H3 V0 V1 V1 V0).
Defined.

(** X2: for every content of [dist], [ltDist] is a strict
    total order on vertex numbers: irreflexive, asymmetric, transitive,
    and it orders any two different vertices; so no two different
    vertices are equivalent keys of the set. *)
Theorem ltDist_strict_total_order d :
  (forall x, ltDist d x x = false) /\
  (forall x y, ltDist d x y = true -> ltDist d y x = false) /\
  (forall x y z,
      ltDist d x y = true -> ltDist d y z = true -> ltDist d x z = true) /\
  (forall x y, x <> y -> ltDist d x y = true \/ ltDist d y x = true).
Proof.
  split; [apply ltDist_irrefl|]. split; [|split].
  - intros x y H. destruct (ltDist d y x) eqn:E; [|reflexivity].
    pose proof (ltDist_trans d x y x H E) as C.
    rewrite ltDist_irrefl in C. discriminate.
  - apply ltDist_trans.
  - intros x y N.
    destruct (ltDist d x y) eqn:E1; [now left|].
    destruct (ltDist d y x) eqn:E2; [now right|].
    exfalso. apply N. now apply (ltDist_total d).
Qed.

(** X3: on a well-formed state, [relax(u, v)] returns; it
    leaves the matrix, the sizes of the tables and every entry other than
    those of [v] as they were, never raises [dist[v]], keeps the set in
    comparator order with the same members other than [v]; and when it
    lowers [dist[v]] it records [u] as predecessor and [v] is in the set,
    otherwise nothing changes. *)
Theorem relax_frame g q u v :
  0 < number_of_nodes g ->
  number_of_nodes g * number_of_nodes g <= INT_MAX ->
  Z.of_nat (length (graph g)) = number_of_nodes g * number_of_nodes g ->
  wf (number_of_nodes g) (graph g) (q, g) ->
  vertex g u -> vertex g v ->
  exists q' g',
    relax u v q g = Done q' g' /\
    wf (number_of_nodes g) (graph g) (q', g') /\
    (forall w, vertex g w -> w <> v ->
               at_ (dist g') w = at_ (dist g) w /\
               at_ (previous_node g') w = at_ (previous_node g) w) /\
    (forall y, y <> v -> (In y q' <-> In y q)) /\
    at_ (dist g') v <= at_ (dist g) v /\
    (at_ (dist g') v < at_ (dist g) v ->
     In v q' /\ at_ (previous_node g') v = u /\
     at_ (dist g') v = add32 (at_ (dist g) u) (edge_cost g u v)) /\
    (at_ (dist g') v = at_ (dist g) v -> q' = q /\ g' = g).
Proof.
  intros Hn Hnn HG W Hu Hv.
  pose proof (relax_eq g Hn Hnn HG u v (q, g) W Hu Hv) as Er.
  cbn [fst snd] in Er.
  destruct (relax_cases g Hn Hnn HG u v q g W Hu Hv)
    as [[E _]|(q' & g' & E & Hc & Hlt & W' & Hin & Ed & Edv & Epv & Eo)];
    rewrite E in Er; cbn [fst snd] in Er.
  - exists q, g. split; [exact Er|]. split; [assumption|].
    split; [now split|]. split; [tauto|]. split; [lia|].
    split; [lia|]. now split.
  - exists q', g'. split; [exact Er|]. split; [assumption|].
    split.
    { intros w Hw N. apply Eo; [unfold vertex in Hw; lia|assumption]. }
    split.
    { intros y N. rewrite Hin. tauto. }
    split; [lia|]. split.
    { intros _. split; [apply Hin; now left|]. now split. }
    intros Eq. lia.
Qed.

Lemma relax_frame_witness :
  0 < number_of_nodes scenario_A_midrun /\
  number_of_nodes scenario_A_midrun * number_of_nodes scenario_A_midrun
  <= INT_MAX /\
  Z.of_nat (length (graph scenario_A_midrun))
  = number_of_nodes scenario_A_midrun * number_of_nodes scenario_A_midrun /\
  wf (number_of_nodes scenario_A_midrun) (graph scenario_A_midrun)
    ([2], scenario_A_midrun) /\
  vertex scenario_A_midrun 1 /\ vertex scenario_A_midrun 2 /\
  exists q' g',
    relax 1 2 [2] scenario_A_midrun = Done q' g' /\
    at_ (dist g') 2 = 2 /\ at_ (previous_node g') 2 = 1 /\ In 2 q'.
Proof.
  assert (H1 : 0 < number_of_nodes scenario_A_midrun) by (simpl; lia).
  assert (H2 : number_of_nodes scenario_A_midrun
               * number_of_nodes scenario_A_midrun <= INT_MAX)
    by (unfold INT_MAX; simpl; lia).
  assert (H3 : Z.of_nat (length (graph scenario_A_midrun))
               = number_of_nodes scenario_A_midrun
                 * number_of_nodes scenario_A_midrun) by reflexivity.
  assert (W : wf (number_of_nodes scenario_A_midrun)
                (graph scenario_A_midrun) ([2], scenario_A_midrun)).
  { unfold wf. simpl. repeat split; try reflexivity;
      repeat constructor; unfold INT_MIN, INT_MAX; lia. }
  assert (V1 : vertex scenario_A_midrun 1) by (unfold vertex; simpl; lia).
  assert (V2 : vertex scenario_A_midrun 2) by (unfold vertex; simpl; lia).
  split; [exact H1|]. split; [exact H2|]. split; [exact H3|].
  split; [exact W|]. split; [exact V1|]. split; [exact V2|].
  destruct (relax_frame scenario_A_midrun [2] 1 2 H1 H2 H3 W V1 V2)
    as (q' & g' & E & _ & _ & _ & _ & _ & _).
  exists q', g'. split; [exact E|].
  vm_compute in E. inversion E. vm_compute.
  repeat split; auto.
Defined.

Lemma tail_writes_length m tr v rest :
  (length (tail_writes m tr v rest) <= m)%nat.
Proof.
  destruct m as [|c]; [simpl; lia|].
  destruct rest as [|x [|y r]]; simpl.
  - destruct tr; simpl; lia.
  - destruct tr; simpl; [rewrite repeat_length|]; lia.
  - rewrite repeat_length. lia.
Qed.

Lemma loaded_matrix_length count st v0 :
  length (loaded_matrix count st v0) = count.
Proof.
  unfold loaded_matrix.
  set (p := int_prefix (tokens st)).
  set (t := tail_writes _ _ _ _).
  assert (Ht : (length t <= count - length p)%nat)
    by apply tail_writes_length.
  rewrite length_app, repeat_length, length_app, length_firstn. lia.
Qed.

Lemma loaded_length n st v0 :
  0 <= n ->
  Z.of_nat (length (graph (loaded n st v0))) = n * n.
Proof.
  intros Hn. unfold loaded. simpl. rewrite loaded_matrix_length. nia.
Qed.

Lemma nth_loaded_int N st v0 i :
  (i < N)%nat ->
  nth i (firstn N (tokens st)
           ++ stale_write N st v0
           ++ repeat 0 (N - length (tokens st)
                        - length (stale_write N st v0))) 0
  = if (i <? length (tokens st))%nat then nth i (tokens st) 0
    else if (i =? length (tokens st))%nat && trailing_space st
         then last (tokens st) v0
         else 0.
Proof.
  intros Hi. destruct (Nat.ltb_spec i (length (tokens st))) as [L|L].
  - rewrite app_nth1 by (rewrite length_firstn; lia).
    rewrite nth_firstn. now replace (i <? N)%nat with true
      by (symmetry; apply Nat.ltb_lt; lia).
  - rewrite firstn_all2 by lia. rewrite app_nth2 by lia.
    unfold stale_write.
    replace (length (tokens st) <? N)%nat with true
      by (symmetry; apply Nat.ltb_lt; lia).
    destruct (trailing_space st); simpl andb.
    + destruct (Nat.eqb_spec i (length (tokens st))) as [E|E].
      * rewrite E, Nat.sub_diag. reflexivity.
      * rewrite andb_false_l.
        destruct (i - length (tokens st))%nat as [|k] eqn:Ek; [lia|].
        simpl. apply nth_repeat.
    + rewrite andb_false_r. simpl. apply nth_repeat.
Qed.

Lemma main_eq fuel n st v0 src :
  0 < n < max_nodes -> stream_ok st ->
  main fuel n st v0 src startup
  = dijkstra fuel (choose_source n src) (loaded n st v0).
Proof.
  intros Hn Hok. unfold main.
  replace ((0 <? n) && (n <? max_nodes)) with true by lia.
  rewrite (bind_Done _ _ _ _ _ (create_startup n Hn)).
  unfold max_nodes in Hn.
  assert (Em : mul32 n n = n * n).
  { unfold mul32. apply wrap32_small.
    unfold int_range, INT_MIN, INT_MAX; nia. }
  rewrite Em.
  set (g1 := mkGlobals n _ _ _).
  destruct (load_loop_spec (Z.to_nat (n * n)) 0 st v0 g1 [])
    as (st' & v' & E); [reflexivity|reflexivity|assumption|].
  rewrite (bind_Done _ _ _ _ _ E). reflexivity.
Qed.

Lemma choose_source_vertex n src : 0 < n -> 0 <= choose_source n src < n.
Proof.
  intros Hn. unfold choose_source.
  destruct (src <? 0) eqn:E1; simpl; [lia|].
  destruct (src >=? n) eqn:E2; lia.
Qed.

(** X4: for [0 < n < max_nodes] and a file of integers within [int],
    after the sizing and the loading loop of [main] the globals are
    [loaded n st v0], and [GraphGet(u, v)] returns the integer number
    [n * u + v] of the file (counting from 0) when the file has one.  The
    entry right after the last integer of the file returns a copy of the
    last integer read (the initial content of the variable when the file
    has no integer) when white space follows that integer, and 0 when the
    file ends right after it; every later entry returns 0. *)
Theorem load_then_GraphGet n st v0 u v :
  0 < n < max_nodes -> stream_ok st -> all_int (tokens st) = true ->
  0 <= u < n -> 0 <= v < n ->
  exists g1 st' v',
    create (with_n startup n) = Done tt g1 /\
    load_loop (Z.to_nat (mul32 n n)) 0 st v0 g1
    = Done (st', v') (loaded n st v0) /\
    GraphGet u v (loaded n st v0)
    = Done (let i := Z.to_nat (n * u + v) in
            if (i <? length (tokens st))%nat then nth i (tokens st) 0
            else if (i =? length (tokens st))%nat && trailing_space st
                 then last (tokens st) v0
                 else 0)
        (loaded n st v0).
Proof.
  intros Hn Hok Hall Hu Hv. rewrite (create_startup n Hn).
  assert (Hn' := Hn). unfold max_nodes in Hn'.
  assert (Em : mul32 n n = n * n).
  { unfold mul32. apply wrap32_small.
    unfold int_range, INT_MIN, INT_MAX; nia. }
  rewrite Em.
  set (g1 := mkGlobals n _ _ _).
  destruct (load_loop_spec (Z.to_nat (n * n)) 0 st v0 g1 [])
    as (st' & v' & E); [reflexivity|reflexivity|assumption|].
  exists g1, st', v'. split; [reflexivity|]. split; [exact E|].
  assert (H1 : 0 < number_of_nodes (loaded n st v0)) by (simpl; lia).
  assert (H2 : number_of_nodes (loaded n st v0)
               * number_of_nodes (loaded n st v0)
               <= INT_MAX) by (unfold INT_MAX; simpl; nia).
  assert (H3 : Z.of_nat (length (graph (loaded n st v0)))
               = number_of_nodes (loaded n st v0)
                 * number_of_nodes (loaded n st v0))
    by (apply loaded_length; lia).
  rewrite (GraphGet_eq (loaded n st v0) H1 H2 H3 (loaded n st v0) u v
             eq_refl eq_refl Hu Hv).
  f_equal. unfold edge_cost, at_, loaded. cbn [graph number_of_nodes].
  rewrite (loaded_matrix_int _ _ _ Hall).
  apply nth_loaded_int. nia.
Qed.

Lemma load_then_GraphGet_witness :
  0 < 2 < max_nodes /\ stream_ok (file [5; 6]) /\
  all_int (tokens (file [5; 6])) = true /\
  exists g1 st' v',
    create (with_n startup 2) = Done tt g1 /\
    load_loop (Z.to_nat (mul32 2 2)) 0 (file [5; 6]) 9 g1
    = Done (st', v') (loaded 2 (file [5; 6]) 9) /\
    GraphGet 1 0 (loaded 2 (file [5; 6]) 9)
    = Done (let i := Z.to_nat (2 * 1 + 0) in
            if (i <? length (tokens (file [5; 6]%Z)))%nat
            then nth i (tokens (file [5; 6])) 0
            else if (i =? length (tokens (file [5; 6]%Z)))%nat
                    && trailing_space (file [5; 6])
                 then last (tokens (file [5; 6])) 9
                 else 0)
        (loaded 2 (file [5; 6]) 9).
Proof.
  assert (H1 : 0 < 2 < max_nodes) by (unfold max_nodes; lia).
  assert (H2 : stream_ok (file [5; 6])) by (split; reflexivity).
  assert (H3 : all_int (tokens (file [5; 6])) = true) by reflexivity.
  split; [exact H1|]. split; [exact H2|]. split; [exact H3|].
  apply (load_then_GraphGet 2 (file [5; 6]) 9 1 0 H1 H2 H3); lia.
Defined.

(** X5: for [0 < n < max_nodes], [main] is
    [dijkstra] on the loaded globals, from the source typed when it is a
    vertex and from vertex 0 otherwise. *)
Theorem main_runs_dijkstra n st v0 src :
  0 < n < max_nodes -> stream_ok st ->
  (forall fuel,
      main fuel n st v0 src startup
      = dijkstra fuel (choose_source n src) (loaded n st v0)) /\
  (0 <= src < n -> choose_source n src = src) /\
  (~ 0 <= src < n -> choose_source n src = 0).
Proof.
  intros Hn Hok. split; [intros fuel; now apply main_eq|].
  unfold choose_source. split; intros H.
  - replace (src <? 0) with false by lia.
    replace (src >=? n) with false by lia. reflexivity.
  - destruct (src <? 0) eqn:E1; [reflexivity|].
    destruct (src >=? n) eqn:E2; [reflexivity|]. lia.
Qed.

Lemma main_runs_dijkstra_witness :
  0 < 2 < max_nodes /\ stream_ok (file [-1; 1; -1]) /\
  tables (main 10 2 (file [-1; 1; -1]) 9 7 startup)
  = Some ([0; 1], [-1; 0]).
Proof.
  assert (H1 : 0 < 2 < max_nodes) by (unfold max_nodes; lia).
  assert (H2 : stream_ok (file [-1; 1; -1])) by (split; reflexivity).
  split; [exact H1|]. split; [exact H2|].
  rewrite (proj1 (main_runs_dijkstra 2 (file [-1; 1; -1]) 9 7 H1 H2)
             10%nat).
  vm_compute. reflexivity.
Defined.

(** X6: whatever the number of nodes read, the rest of the file, the
    state of the stream, the initial content of the variable and the
    source typed, [main] returns without indexing a vector outside its
    bounds; when the number of nodes is not in [(0, max_nodes)] it leaves
    the three vectors empty. *)
Theorem main_never_undefined n st v0 src :
  exists fuel g',
    main fuel n st v0 src startup = Done tt g' /\
    (~ 0 < n < max_nodes -> g' = with_n startup n).
Proof.
  destruct (Z.ltb_spec 0 n) as [H0|H0];
    [destruct (Z.ltb_spec n max_nodes) as [H1|H1]|].
  - assert (Hn : 0 < n < max_nodes) by lia.
    assert (Hn' := Hn). unfold max_nodes in Hn'.
    assert (Em : mul32 n n = n * n).
    { unfold mul32. apply wrap32_small.
      unfold int_range, INT_MIN, INT_MAX; nia. }
    set (g1 := mkGlobals n (repeat 0 (Z.to_nat (n * n)))
                 (repeat 0 (Z.to_nat n)) (repeat 0 (Z.to_nat n))).
    destruct (load_loop_shape (Z.to_nat (n * n)) 0 st v0 g1)
      as (st' & v' & m & El & Lm).
    { lia. }
    { unfold g1. simpl. rewrite repeat_length. lia. }
    unfold g1 in Lm. simpl in Lm. rewrite repeat_length in Lm.
    destruct (dijkstra_terminates_g0 (with_graph g1 m))
      with (s := choose_source n src) as (fuel & g' & E).
    + simpl. lia.
    + unfold INT_MAX. simpl. nia.
    + simpl. rewrite Lm. nia.
    + simpl. rewrite repeat_length. lia.
    + simpl. rewrite repeat_length. lia.
    + unfold vertex. simpl. apply choose_source_vertex. lia.
    + exists fuel, g'. split; [|intros N; contradiction].
      unfold main.
      replace ((0 <? n) && (n <? max_nodes)) with true by lia.
      rewrite (bind_Done _ _ _ _ _ (create_startup n Hn)).
      rewrite Em. fold g1.
      rewrite (bind_Done _ _ _ _ _ El). exact E.
  - exists 0%nat, (with_n startup n). unfold main.
    replace ((0 <? n) && (n <? max_nodes)) with false by lia.
    split; [reflexivity|]. reflexivity.
  - exists 0%nat, (with_n startup n). unfold main.
    replace ((0 <? n) && (n <? max_nodes)) with false by lia.
    split; [reflexivity|]. reflexivity.
Qed.
